(** * A team of workers: the coordination protocol of [twisted.threads._team]

    The development embeds the class [Team] of
    [src/twisted/threads/_team.py].  Every method that the source runs in the
    coordinator context is a function on a [World]; the public methods run in
    the caller's context and return an [Outcome] next to the world they
    leave; the coordinator and the workers are queues of accepted items that
    are performed one [Step] at a time, in any interleaving.  The coordinator
    performs its items one by one in the order it accepted them, and goes on
    doing so after it has been told to quit: the runs of a coordinator that
    stops are among the runs here. *)

From stdpp Require Import base decidable option list gmap fin_sets.
From Stdlib Require Import ZArith Lia.

Open Scope Z_scope.

(** ** Data *)

(** A worker handle is the identity of an [IWorker] object. *)
Definition Worker := nat.

(** What a call [task()] does: it returns, or it raises. *)
Inductive TaskBody := Returns | Raises.

(** A task is a 0-argument callable, named so that calls can be told apart. *)
Record Task := { taskName : nat; taskBody : TaskBody }.

Inductive Exn := PoolShuttingDown | UserTaskError.

(** The way a Python call ends. *)
Inductive Outcome := Ok | Raised (e : Exn).

(** [class Statistics]. *)
Record Statistics := {
  idleWorkerCount : Z;
  busyWorkerCount : Z;
  backloggedWorkCount : Z
}.

(** Modelled from the spec: the class [Quit] of [twisted/threads/_convenience.py]
    is imported by [_team.py] but is not part of the sources at hand.  The spec
    calls its flag [quitRequested]: "one-shot flag set by quit; once set,
    rejects further public submissions". *)
Record Quit := { isSet : bool }.

(** Modelled from the spec: [Quit.check], "Fails with PoolShuttingDown if
    quitRequested". *)
Definition Quit_check (q : Quit) : Outcome :=
  if isSet q then Raised PoolShuttingDown else Ok.

(** Modelled from the spec: [Quit.set].  The flag is "one-shot" and is "set
    by quit", and a "public operation invoked after quit" fails
    synchronously, "state unchanged": [set] checks first, and sets the flag
    when the check passes. *)
Definition Quit_set (q : Quit) : Outcome * Quit :=
  match Quit_check q with
  | Raised e => (Raised e, q)
  | Ok => (Ok, {| isSet := true |})
  end.

(** The fields of a [Team] that only the coordinator touches, and [_quit]. *)
Record Team := {
  _quit : Quit;
  _idle : gset Worker;
  _busyCount : Z;
  _pending : list Task;
  _coordinatorQuit : bool;
  _toShrink : Z
}.

(** Work accepted by [self._coordinator.do], one constructor per closure of
    the source. *)
Inductive CoordItem :=
| CreateOneWorker (n : Z)               (* the closure of [grow] *)
| QuitIdlers (n : option Z)             (* [lambda: self._quitIdlers(n)] *)
| CoordinateThisTask (task : Task)      (* [lambda: self._coordinateThisTask(task)] *)
| IdleAndPending (worker : Worker).     (* the closure of [doWork] *)

(** Calls on the collaborators and operations on the backlog, as they happen. *)
Inductive Event :=
| EvCreate (r : option Worker)          (* [self._createWorker()] returned [r] *)
| EvBacklog (task : Task)               (* [self._pending.append(task)] *)
| EvRetry (task : Task)                 (* [self._pending.popleft()] gave [task] *)
| EvSubmit (worker : Worker) (task : Task)  (* [worker.do(doWork)] *)
| EvRun (worker : Worker) (task : Task)     (* [task()] on the worker *)
| EvLog (worker : Worker) (task : Task)     (* [self._logException()] *)
| EvWorkerQuit (worker : Worker)        (* [worker.quit()] *)
| EvCoordinatorQuit (n : option Z) (quitRequested : bool) (s : Statistics).
                                        (* [self._coordinator.quit()], with the
                                           argument of the [_quitIdlers] that
                                           made the call and the team as it
                                           was at the call *)

(** The team and its collaborators. *)
Record World := {
  team : Team;
  factoryCalls : nat;                   (* calls of [createWorker] so far *)
  coordinator : list CoordItem;         (* accepted by the coordinator, not yet performed *)
  workers : list (Worker * Task);       (* [doWork] closures accepted by workers,
                                           not yet performed, oldest first *)
  trace : list Event                    (* oldest first *)
}.

(** ** Field updates *)

Definition setTeam (f : Team → Team) (σ : World) : World :=
  {| team := f (team σ); factoryCalls := factoryCalls σ;
     coordinator := coordinator σ; workers := workers σ; trace := trace σ |}.

Definition emit (e : Event) (σ : World) : World :=
  {| team := team σ; factoryCalls := factoryCalls σ;
     coordinator := coordinator σ; workers := workers σ;
     trace := trace σ ++ [e] |}.

Definition setCoordinator (q : list CoordItem) (σ : World) : World :=
  {| team := team σ; factoryCalls := factoryCalls σ;
     coordinator := q; workers := workers σ; trace := trace σ |}.

Definition setWorkers (q : list (Worker * Task)) (σ : World) : World :=
  {| team := team σ; factoryCalls := factoryCalls σ;
     coordinator := coordinator σ; workers := q; trace := trace σ |}.

Definition coordinator_do (item : CoordItem) (σ : World) : World :=
  {| team := team σ; factoryCalls := factoryCalls σ;
     coordinator := coordinator σ ++ [item]; workers := workers σ;
     trace := trace σ |}.

Definition worker_do (w : Worker) (task : Task) (σ : World) : World :=
  emit (EvSubmit w task)
    {| team := team σ; factoryCalls := factoryCalls σ;
       coordinator := coordinator σ; workers := workers σ ++ [(w, task)];
       trace := trace σ |}.

Definition setQuit (q : Quit) (t : Team) : Team :=
  {| _quit := q; _idle := _idle t; _busyCount := _busyCount t;
     _pending := _pending t; _coordinatorQuit := _coordinatorQuit t;
     _toShrink := _toShrink t |}.

Definition setIdle (s : gset Worker) (t : Team) : Team :=
  {| _quit := _quit t; _idle := s; _busyCount := _busyCount t;
     _pending := _pending t; _coordinatorQuit := _coordinatorQuit t;
     _toShrink := _toShrink t |}.

Definition setBusyCount (n : Z) (t : Team) : Team :=
  {| _quit := _quit t; _idle := _idle t; _busyCount := n;
     _pending := _pending t; _coordinatorQuit := _coordinatorQuit t;
     _toShrink := _toShrink t |}.

Definition setPending (p : list Task) (t : Team) : Team :=
  {| _quit := _quit t; _idle := _idle t; _busyCount := _busyCount t;
     _pending := p; _coordinatorQuit := _coordinatorQuit t;
     _toShrink := _toShrink t |}.

Definition setCoordinatorQuit (b : bool) (t : Team) : Team :=
  {| _quit := _quit t; _idle := _idle t; _busyCount := _busyCount t;
     _pending := _pending t; _coordinatorQuit := b;
     _toShrink := _toShrink t |}.

Definition setToShrink (n : Z) (t : Team) : Team :=
  {| _quit := _quit t; _idle := _idle t; _busyCount := _busyCount t;
     _pending := _pending t; _coordinatorQuit := _coordinatorQuit t;
     _toShrink := n |}.

(** [Team.statistics]. *)
Definition statistics (t : Team) : Statistics :=
  {| idleWorkerCount := Z.of_nat (size (_idle t));
     busyWorkerCount := _busyCount t;
     backloggedWorkCount := Z.of_nat (length (_pending t)) |}.

(** [Team.__init__]. *)
Definition Team_init : Team :=
  {| _quit := {| isSet := false |}; _idle := ∅; _busyCount := 0;
     _pending := []; _coordinatorQuit := false; _toShrink := 0 |}.

Definition fresh : World :=
  {| team := Team_init; factoryCalls := 0%nat; coordinator := [];
     workers := []; trace := [] |}.

(** ** Two collaborators to run the team with *)

(** The factory of [Team.withLimit]: [limitedWorkerCreator].  The k-th call
    makes the thread worker [k]. *)
Definition limitedWorkerCreator (currentLimit : nat → Z)
  : nat → Statistics → option Worker :=
  λ k stats,
    if busyWorkerCount stats + idleWorkerCount stats >=? currentLimit k
    then None else Some k.

(** A [set.pop] that takes the first element of the listing. *)
Definition popFirst : list Worker → nat := λ _, 0%nat.

(** Tasks that return and tasks that raise. *)
Definition returning_task (n : nat) : Task :=
  {| taskName := n; taskBody := Returns |}.

Definition raising_task (n : nat) : Task :=
  {| taskName := n; taskBody := Raises |}.

(** A factory that never declines: the k-th call makes the worker [k]. *)
Definition alwaysNew : nat → Statistics → option Worker := λ k _, Some k.

(** A limit that is 0 for the first three calls of the factory and 3 from
    then on. *)
Definition limitOpensLate (k : nat) : Z := if (k <? 3)%nat then 0 else 3.

(** ** Reading a trace and the queues *)

(** The workers the factory has made, oldest first. *)
Definition produced (tr : list Event) : list Worker :=
  omap (λ e, match e with EvCreate r => r | _ => None end) tr.

(** The workers told to quit. *)
Definition retired (tr : list Event) : list Worker :=
  omap (λ e, match e with EvWorkerQuit w => Some w | _ => None end) tr.

(** The calls of [self._coordinator.quit()]. *)
Definition coordinatorQuits (tr : list Event) : list (option Z * bool * Statistics) :=
  omap (λ e, match e with
             | EvCoordinatorQuit n q s => Some (n, q, s)
             | _ => None
             end) tr.

(** The tasks put on [_pending], and the tasks taken off it. *)
Definition backlogged (tr : list Event) : list Task :=
  omap (λ e, match e with EvBacklog task => Some task | _ => None end) tr.

Definition retried (tr : list Event) : list Task :=
  omap (λ e, match e with EvRetry task => Some task | _ => None end) tr.

(** The tasks handed to a worker, and the tasks it has run. *)
Definition submittedTo (w : Worker) (tr : list Event) : list Task :=
  omap (λ e, match e with
             | EvSubmit w' task => if decide (w' = w) then Some task else None
             | _ => None
             end) tr.

Definition ranOn (w : Worker) (tr : list Event) : list Task :=
  omap (λ e, match e with
             | EvRun w' task => if decide (w' = w) then Some task else None
             | _ => None
             end) tr.

(** The tasks run, on whatever worker. *)
Definition ran (tr : list Event) : list Task :=
  omap (λ e, match e with EvRun _ task => Some task | _ => None end) tr.

(** The tasks a worker has accepted and not yet run. *)
Definition queueOf (w : Worker) (q : list (Worker * Task)) : list Task :=
  omap (λ p, if decide (p.1 = w) then Some p.2 else None) q.

(** The workers whose [idleAndPending] item waits in the coordinator's queue. *)
Definition returning (q : list CoordItem) : list Worker :=
  omap (λ i, match i with IdleAndPending w => Some w | _ => None end) q.

(** The workers that have been handed a task and have not been recycled. *)
Definition busyWorkers (σ : World) : list Worker :=
  (workers σ).*1 ++ returning (coordinator σ).

(** [_busyCount] counts the busy workers. *)
Definition Accounting (σ : World) : Prop :=
  _busyCount (team σ) = Z.of_nat (length (busyWorkers σ)).

(** What a call of [self._coordinator.quit()] found: the flag set, no busy
    worker, no pending task and, when made by [_quitIdlers()] without a
    number, no idle worker. *)
Definition goodRetirement (c : option Z * bool * Statistics) : Prop :=
  c.1.2 = true ∧ busyWorkerCount c.2 = 0 ∧ backloggedWorkCount c.2 = 0 ∧
  (c.1.1 = None → idleWorkerCount c.2 = 0).

Definition Retirement (σ : World) : Prop :=
  length (coordinatorQuits (trace σ))
    = (if _coordinatorQuit (team σ) then 1 else 0)%nat ∧
  Forall goodRetirement (coordinatorQuits (trace σ)).

(** Every task taken off [_pending] is handed to a worker right away. *)
Fixpoint retriesServed (tr : list Event) : Prop :=
  match tr with
  | [] => True
  | EvRetry task :: tr' =>
      match tr' with
      | EvSubmit _ task' :: _ => task' = task
      | _ => False
      end ∧ retriesServed tr'
  | _ :: tr' => retriesServed tr'
  end.

(** [_pending] is a queue, and so is what each worker has accepted. *)
Definition Fifo (σ : World) : Prop :=
  backlogged (trace σ) = retried (trace σ) ++ _pending (team σ) ∧
  ∀ w, submittedTo w (trace σ) = ranOn w (trace σ) ++ queueOf w (workers σ).

(** What [_quitIdlers] leaves alone. *)
Definition keepsBusy (σ σ' : World) : Prop :=
  _busyCount (team σ') = _busyCount (team σ) ∧
  _pending (team σ') = _pending (team σ) ∧
  _quit (team σ') = _quit (team σ) ∧
  workers σ' = workers σ ∧
  coordinator σ' = coordinator σ ∧
  factoryCalls σ' = factoryCalls σ.

(** The team once a [_quitIdlers()] has run with the quit flag set: no idle
    worker is left, and with no busy worker and no pending task the
    coordinator has been told to quit. *)
Definition QuitSettled (σ : World) : Prop :=
  Accounting σ ∧
  isSet (_quit (team σ)) = true ∧
  _idle (team σ) = ∅ ∧
  (_busyCount (team σ) = 0 → _pending (team σ) = [] →
   _coordinatorQuit (team σ) = true).

(** The same where [_recycleWorker] is entered. *)
Definition QuitSettling (σ : World) : Prop :=
  Accounting σ ∧ isSet (_quit (team σ)) = true ∧ _idle (team σ) = ∅.

(** The tasks whose dispatch waits in the coordinator's queue. *)
Definition queuedTasks (q : list CoordItem) : list Task :=
  omap (λ i, match i with CoordinateThisTask task => Some task | _ => None end) q.

(** The tasks the team holds or has run: pending, handed to a worker and
    not yet run, or run. *)
Definition held (σ : World) : list Task :=
  _pending (team σ) ++ (workers σ).*2 ++ ran (trace σ).

(** All the tasks the team has taken, wherever they are. *)
Definition inFlight (σ : World) : list Task :=
  queuedTasks (coordinator σ) ++ held σ.

(** The tasks [_logException] was called for. *)
Definition logged (tr : list Event) : list Task :=
  omap (λ e, match e with EvLog _ task => Some task | _ => None end) tr.

(** The tasks of a list that raise. *)
Definition raisingOnes (l : list Task) : list Task :=
  omap (λ task, match taskBody task with
                | Raises => Some task
                | Returns => None
                end) l.

(** No task waits in [_pending] while a worker is idle. *)
Definition NoIdleWait (σ : World) : Prop :=
  _pending (team σ) = [] ∨ _idle (team σ) = ∅.

(** What a method does to the tasks: it leaves the coordinator's queue and
    the quit flag alone, and the tasks held are the same, in some order. *)
Definition keepsTasks (σ σ' : World) : Prop :=
  coordinator σ' = coordinator σ ∧
  _quit (team σ') = _quit (team σ) ∧
  held σ' ≡ₚ held σ.

(** The idle workers and the busy ones are together at most [L]. *)
Definition WithinLimit (L : Z) (σ : World) : Prop :=
  Z.of_nat (size (_idle (team σ))) + _busyCount (team σ) ≤ L.

(** ** The methods of [Team] *)

Section Team.

(** [createWorker]: what the k-th call of the factory answers, given the
    statistics of the team at the call. *)
Variable createWorker : nat → Statistics → option Worker.

(** [set.pop()] removes an arbitrary element: [choose] picks a position in
    the listing of the set. *)
Variable choose : list Worker → nat.

Definition set_pop (s : gset Worker) : option (Worker * gset Worker) :=
  let l := elements s in
  match l !! (choose l mod length l)%nat with
  | Some w => Some (w, s ∖ {[w]})
  | None => None
  end.

(** One call [self._createWorker()]. *)
Definition callFactory (σ : World) : option Worker * World :=
  let r := createWorker (factoryCalls σ) (statistics (team σ)) in
  (r, emit (EvCreate r)
        {| team := team σ; factoryCalls := S (factoryCalls σ);
           coordinator := coordinator σ; workers := workers σ;
           trace := trace σ |}).

(** One round of the loop of [_quitIdlers]. *)
Definition quitOneIdler (σ : World) : World :=
  if decide (_idle (team σ) = ∅)
  then setTeam (λ t, setToShrink (_toShrink t + 1) t) σ
  else match set_pop (_idle (team σ)) with
       | Some (w, rest) => emit (EvWorkerQuit w) (setTeam (setIdle rest) σ)
       | None => σ   (* [KeyError]: does not happen on a non-empty set *)
       end.

(** The check at the end of [_quitIdlers]. *)
Definition retireCoordinator (n : option Z) (σ : World) : World :=
  let t := team σ in
  if negb (_coordinatorQuit t) && (_busyCount t =? 0) &&
     (Z.of_nat (length (_pending t)) =? 0) && isSet (_quit t)
  then let σ' := setTeam (setCoordinatorQuit true) σ in
       emit (EvCoordinatorQuit n (isSet (_quit (team σ'))) (statistics (team σ'))) σ'
  else σ.

(** [Team._quitIdlers]. *)
Definition _quitIdlers (n : option Z) (σ : World) : World :=
  let count := match n with
               | None => Z.of_nat (size (_idle (team σ))) + _busyCount (team σ)
               | Some n => n
               end in
  retireCoordinator n (Nat.iter (Z.to_nat count) quitOneIdler σ).

(** [Team._coordinateThisTask]. *)
Definition _coordinateThisTask (task : Task) (σ : World) : World :=
  let '(worker, σ1) :=
    if decide (_idle (team σ) = ∅)
    then callFactory σ
    else match set_pop (_idle (team σ)) with
         | Some (w, rest) => (Some w, setTeam (setIdle rest) σ)
         | None => (None, σ)   (* [KeyError]: does not happen *)
         end in
  match worker with
  | None => emit (EvBacklog task)
              (setTeam (λ t, setPending (_pending t ++ [task]) t) σ1)
  | Some w => worker_do w task
                (setTeam (λ t, setBusyCount (_busyCount t + 1) t) σ1)
  end.

(** [Team._recycleWorker]. *)
Definition _recycleWorker (worker : Worker) (σ : World) : World :=
  let σ1 := setTeam (λ t, setIdle ({[worker]} ∪ _idle t) t) σ in
  match _pending (team σ1) with
  | task :: rest =>
      _coordinateThisTask task (emit (EvRetry task) (setTeam (setPending rest) σ1))
  | [] =>
      if isSet (_quit (team σ1)) then _quitIdlers None σ1
      else if _toShrink (team σ1) >? 0 then
        emit (EvWorkerQuit worker)
          (setTeam (λ t, setIdle (_idle t ∖ {[worker]})
                           (setToShrink (_toShrink t - 1) t)) σ1)
      else σ1
  end.

(** The closure [createOneWorker] of [Team.grow], with [k] rounds of its
    loop left. *)
Fixpoint createOneWorker (k : nat) (σ : World) : World :=
  match k with
  | O => σ
  | S k' =>
      let '(worker, σ1) := callFactory σ in
      match worker with
      | None => σ1
      | Some w => createOneWorker k' (_recycleWorker w σ1)
      end
  end.

(** The closure [idleAndPending] of [doWork]. *)
Definition idleAndPending (worker : Worker) (σ : World) : World :=
  _recycleWorker worker (setTeam (λ t, setBusyCount (_busyCount t - 1) t) σ).

(** The coordinator performs one accepted item. *)
Definition perform (item : CoordItem) (σ : World) : World :=
  match item with
  | CreateOneWorker n => createOneWorker (Z.to_nat n) σ
  | QuitIdlers n => _quitIdlers n σ
  | CoordinateThisTask task => _coordinateThisTask task σ
  | IdleAndPending w => idleAndPending w σ
  end.

(** The closure [doWork] of [_coordinateThisTask], run by the worker:
    [try: task() except: self._logException()], then the hand-back. *)
Definition callTask (task : Task) : Outcome :=
  match taskBody task with
  | Returns => Ok
  | Raises => Raised UserTaskError
  end.

Definition doWork (worker : Worker) (task : Task) (σ : World) : Outcome * World :=
  let σ1 := emit (EvRun worker task) σ in
  let σ2 := match callTask task with
            | Ok => σ1
            | Raised _ => emit (EvLog worker task) σ1
            end in
  (Ok, coordinator_do (IdleAndPending worker) σ2).

(** ** The public methods, in the caller's context *)

(** [Team.grow]. *)
Definition grow (n : Z) (σ : World) : Outcome * World :=
  match Quit_check (_quit (team σ)) with
  | Raised e => (Raised e, σ)
  | Ok => (Ok, coordinator_do (CreateOneWorker n) σ)
  end.

(** [Team.shrink]. *)
Definition shrink (n : option Z) (σ : World) : Outcome * World :=
  match Quit_check (_quit (team σ)) with
  | Raised e => (Raised e, σ)
  | Ok => (Ok, coordinator_do (QuitIdlers n) σ)
  end.

(** [Team.do]. *)
Definition do (task : Task) (σ : World) : Outcome * World :=
  match Quit_check (_quit (team σ)) with
  | Raised e => (Raised e, σ)
  | Ok => (Ok, coordinator_do (CoordinateThisTask task) σ)
  end.

(** [Team.quit]. *)
Definition quit (σ : World) : Outcome * World :=
  match Quit_set (_quit (team σ)) with
  | (Raised e, _) => (Raised e, σ)
  | (Ok, q) => (Ok, coordinator_do (QuitIdlers None) (setTeam (setQuit q) σ))
  end.

(** ** Runs *)

(** The first item a worker has accepted and not performed, and the
    others. *)
Fixpoint takeFor (w : Worker) (q : list (Worker * Task))
  : option (Task * list (Worker * Task)) :=
  match q with
  | [] => None
  | (w', task) :: q' =>
      if decide (w' = w) then Some (task, q')
      else match takeFor w q' with
           | Some (task', q'') => Some (task', (w', task) :: q'')
           | None => None
           end
  end.

(** What can happen next: a caller calls a public method, the coordinator
    performs the item at the head of its queue, or a worker performs the
    oldest item it has accepted. *)
Inductive Step :=
| CallDo (task : Task)
| CallGrow (n : Z)
| CallShrink (n : option Z)
| CallQuit
| CoordinatorRuns
| WorkerRuns (w : Worker).

Definition step (σ : World) (s : Step) : World :=
  match s with
  | CallDo task => snd (do task σ)
  | CallGrow n => snd (grow n σ)
  | CallShrink n => snd (shrink n σ)
  | CallQuit => snd (quit σ)
  | CoordinatorRuns =>
      match coordinator σ with
      | [] => σ
      | item :: q =>
          perform item (setCoordinator q σ)
      end
  | WorkerRuns w =>
      match takeFor w (workers σ) with
      | None => σ
      | Some (task, q) =>
          snd (doWork w task (setWorkers q σ))
      end
  end.

Definition run (steps : list Step) (σ : World) : World :=
  fold_left step steps σ.

(** ** The live workers *)

(** The factory made [w] in one of its first [k] calls. *)
Definition madeBefore (k : nat) (w : Worker) : Prop :=
  ∃ i s, (i < k)%nat ∧ createWorker i s = Some w.

(** A factory that makes a new worker each time it makes one. *)
Definition FreshWorkers : Prop :=
  ∀ i j s s' w,
    createWorker i s = Some w → createWorker j s' = Some w → i = j.

(** No worker is busy twice or busy and idle, every worker was made by the
    factory, and the workers made and not told to quit are the idle ones and
    the busy ones. *)
Definition Live (σ : World) : Prop :=
  NoDup (busyWorkers σ) ∧
  (∀ w, w ∈ busyWorkers σ → w ∉ _idle (team σ)) ∧
  (∀ w, w ∈ _idle (team σ) ∨ w ∈ busyWorkers σ →
        madeBefore (factoryCalls σ) w) ∧
  Z.of_nat (size (_idle (team σ))) + _busyCount (team σ)
    = Z.of_nat (length (produced (trace σ)))
      - Z.of_nat (length (retired (trace σ))).

(** The same where [_recycleWorker worker] is entered: the worker is neither
    idle nor busy, and is still to be counted. *)
Definition LivePre (worker : Worker) (σ : World) : Prop :=
  NoDup (busyWorkers σ) ∧
  (∀ w, w ∈ busyWorkers σ → w ∉ _idle (team σ)) ∧
  (worker ∉ _idle (team σ)) ∧
  (worker ∉ busyWorkers σ) ∧
  (∀ w, w = worker ∨ w ∈ _idle (team σ) ∨ w ∈ busyWorkers σ →
        madeBefore (factoryCalls σ) w) ∧
  Z.of_nat (size (_idle (team σ))) + _busyCount (team σ) + 1
    = Z.of_nat (length (produced (trace σ)))
      - Z.of_nat (length (retired (trace σ))).

(** The tasks [Team.do] takes along a list of steps, given whether the quit
    flag is set at the start: those of the calls made before the first
    [Team.quit]. *)
Fixpoint accepted (quitSet : bool) (steps : list Step) : list Task :=
  match steps with
  | [] => []
  | CallDo task :: rest =>
      if quitSet then accepted quitSet rest else task :: accepted quitSet rest
  | CallQuit :: rest => accepted true rest
  | _ :: rest => accepted quitSet rest
  end.

(** A factory that never declines. *)
Definition NeverDeclines : Prop :=
  ∀ k s, is_Some (createWorker k s).

(** The workers told to quit: each once, none of them idle or busy, all of
    them made by the factory. *)
Definition Gone (σ : World) : Prop :=
  NoDup (retired (trace σ)) ∧
  ∀ w, w ∈ retired (trace σ) →
       (w ∉ _idle (team σ)) ∧ (w ∉ busyWorkers σ) ∧
       madeBefore (factoryCalls σ) w.

(** What [statistics()] gives when [j] of the pending tasks of [σ] have gone
    to [j] new workers and no worker is idle. *)
Definition statisticsAfter (σ : World) (j : nat) : Statistics :=
  {| idleWorkerCount := 0;
     busyWorkerCount := _busyCount (team σ) + Z.of_nat j;
     backloggedWorkCount := Z.of_nat (length (_pending (team σ))) - Z.of_nat j |}.

(** The next [k] calls of the factory do not decline, when for each of them
    one more pending task has gone to one more worker. *)
Definition NextAccepted (k : nat) (σ : World) : Prop :=
  ∀ j, (j < k)%nat →
       is_Some (createWorker (factoryCalls σ + j) (statisticsAfter σ j)).

(** ** [set.pop] *)

Lemma set_pop_nonempty (s : gset Worker) :
  s ≠ ∅ → ∃ w, w ∈ s ∧ set_pop s = Some (w, s ∖ {[w]}).
Proof.
  intros Hne. unfold set_pop.
  assert (Hlen : (0 < length (elements s))%nat).
  { destruct (elements s) eqn:E; [|simpl; lia].
    apply elements_empty_inv in E. apply leibniz_equiv in E. contradiction. }
  destruct (lookup_lt_is_Some_2 (elements s)
              (choose (elements s) mod length (elements s))%nat) as [w Hw].
  { apply Nat.mod_upper_bound. lia. }
  exists w. rewrite Hw. split; [|reflexivity].
  apply elem_of_elements, list_elem_of_lookup. eauto.
Qed.

(** ** The shape of what each method does *)

Lemma quitOneIdler_cases (σ : World) :
  (_idle (team σ) = ∅ ∧
   quitOneIdler σ = setTeam (λ t, setToShrink (_toShrink t + 1) t) σ)
  ∨ (∃ w, w ∈ _idle (team σ) ∧
          quitOneIdler σ =
            emit (EvWorkerQuit w) (setTeam (setIdle (_idle (team σ) ∖ {[w]})) σ)).
Proof.
  unfold quitOneIdler.
  destruct (decide (_idle (team σ) = ∅)) as [He|Hne]; [left; auto|right].
  destruct (set_pop_nonempty _ Hne) as (w & Hw & Hpop).
  exists w. rewrite Hpop. auto.
Qed.

Lemma coordinate_cases (task : Task) (σ : World) :
  (∃ w, w ∈ _idle (team σ) ∧
        _coordinateThisTask task σ =
          worker_do w task
            (setTeam (λ t, setBusyCount (_busyCount t + 1) t)
               (setTeam (setIdle (_idle (team σ) ∖ {[w]})) σ)))
  ∨ (_idle (team σ) = ∅ ∧
     ∃ w, createWorker (factoryCalls σ) (statistics (team σ)) = Some w ∧
          _coordinateThisTask task σ =
            worker_do w task
              (setTeam (λ t, setBusyCount (_busyCount t + 1) t)
                 (snd (callFactory σ))))
  ∨ (_idle (team σ) = ∅ ∧
     createWorker (factoryCalls σ) (statistics (team σ)) = None ∧
     _coordinateThisTask task σ =
       emit (EvBacklog task)
         (setTeam (λ t, setPending (_pending t ++ [task]) t)
            (snd (callFactory σ)))).
Proof.
  unfold _coordinateThisTask.
  destruct (decide (_idle (team σ) = ∅)) as [He|Hne].
  - right. unfold callFactory.
    destruct (createWorker (factoryCalls σ) (statistics (team σ))) as [w|] eqn:E.
    + left. split; [done|]. exists w. split; [done|]. reflexivity.
    + right. repeat split; try done.
  - left. destruct (set_pop_nonempty _ Hne) as (w & Hw & Hpop).
    exists w. rewrite Hpop. auto.
Qed.

Lemma recycle_pending (w : Worker) (task : Task) (rest : list Task) (σ : World) :
  _pending (team σ) = task :: rest →
  ∃ w', w' ∈ {[w]} ∪ _idle (team σ) ∧
        _recycleWorker w σ =
          worker_do w' task
            (setTeam (λ t, setBusyCount (_busyCount t + 1) t)
               (setTeam (setIdle (({[w]} ∪ _idle (team σ)) ∖ {[w']}))
                  (emit (EvRetry task)
                     (setTeam (setPending rest)
                        (setTeam (λ t, setIdle ({[w]} ∪ _idle t) t) σ))))).
Proof.
  intros Hp. unfold _recycleWorker. cbn. rewrite Hp.
  match goal with |- context [_coordinateThisTask task ?s] =>
    destruct (coordinate_cases task s) as [(w' & Hw' & ->)|[(He & _)|(He & _)]]
  end.
  - exists w'. split; [exact Hw'|reflexivity].
  - cbn in He. set_solver.
  - cbn in He. set_solver.
Qed.

Lemma recycle_shrink (w : Worker) (σ : World) :
  _pending (team σ) = [] → isSet (_quit (team σ)) = false →
  0 < _toShrink (team σ) →
  _recycleWorker w σ =
    emit (EvWorkerQuit w)
      (setTeam (λ t, setIdle (({[w]} ∪ _idle t) ∖ {[w]})
                       (setToShrink (_toShrink t - 1) t)) σ).
Proof.
  intros Hp Hq Hs. unfold _recycleWorker. cbn. rewrite Hp, Hq.
  destruct (Z.gtb_spec (_toShrink (team σ)) 0); [reflexivity|lia].
Qed.

(** ** Claims about single methods *)

(** C2.  Once the quit flag is set, [Team.do] and [Team.grow] raise the
    shutting-down error at their first statement: nothing is handed to the
    coordinator and the world, with every field of the team, is the one they
    were called in. *)
Theorem do_and_grow_fail_after_quit (task : Task) (n : Z) (σ : World) :
  isSet (_quit (team σ)) = true →
  do task σ = (Raised PoolShuttingDown, σ) ∧
  grow n σ = (Raised PoolShuttingDown, σ).
Proof.
  intros Hq. unfold do, grow, Quit_check. rewrite Hq. split; reflexivity.
Qed.

(** C3.  The dispatch step [_coordinateThisTask]: with an idle worker at hand
    one of them leaves the idle set, [_busyCount] goes up by one and the
    [doWork] item of the task is handed to that worker, the factory not being
    called; with no idle worker the factory is called once, and either its
    worker gets the item and [_busyCount] goes up by one, or the task goes to
    the tail of [_pending] and [_busyCount] stays. *)
Theorem dispatch_step (task : Task) (σ : World) :
  let σ' := _coordinateThisTask task σ in
  _toShrink (team σ') = _toShrink (team σ) ∧
  _quit (team σ') = _quit (team σ) ∧
  _coordinatorQuit (team σ') = _coordinatorQuit (team σ) ∧
  coordinator σ' = coordinator σ ∧
  if decide (_idle (team σ) = ∅) then
    factoryCalls σ' = S (factoryCalls σ) ∧
    _idle (team σ') = _idle (team σ) ∧
    match createWorker (factoryCalls σ) (statistics (team σ)) with
    | Some w =>
        _busyCount (team σ') = _busyCount (team σ) + 1 ∧
        workers σ' = workers σ ++ [(w, task)] ∧
        _pending (team σ') = _pending (team σ) ∧
        trace σ' = trace σ ++ [EvCreate (Some w); EvSubmit w task]
    | None =>
        _busyCount (team σ') = _busyCount (team σ) ∧
        workers σ' = workers σ ∧
        _pending (team σ') = _pending (team σ) ++ [task] ∧
        trace σ' = trace σ ++ [EvCreate None; EvBacklog task]
    end
  else
    ∃ w, w ∈ _idle (team σ) ∧
         _idle (team σ') = _idle (team σ) ∖ {[w]} ∧
         factoryCalls σ' = factoryCalls σ ∧
         _busyCount (team σ') = _busyCount (team σ) + 1 ∧
         workers σ' = workers σ ++ [(w, task)] ∧
         _pending (team σ') = _pending (team σ) ∧
         trace σ' = trace σ ++ [EvSubmit w task].
Proof.
  cbn zeta.
  destruct (coordinate_cases task σ)
    as [(w & Hw & ->)|[(He & w & Hc & ->)|(He & Hc & ->)]]; cbn.
  - repeat split. destruct (decide (_idle (team σ) = ∅)) as [He|_].
    + rewrite He in Hw. set_solver.
    + exists w. repeat split; auto.
  - repeat split. destruct (decide (_idle (team σ) = ∅)); [|done].
    rewrite Hc. rewrite <- app_assoc. repeat split; reflexivity.
  - repeat split. destruct (decide (_idle (team σ) = ∅)); [|done].
    rewrite Hc. rewrite <- app_assoc. repeat split; reflexivity.
Qed.

(** C4.  [_recycleWorker] first adds the worker to [_idle].  With a task in
    [_pending] the head is taken and dispatched, whatever the quit flag says,
    and [_toShrink] is left alone.  With [_pending] empty and the flag set it
    goes on as [_quitIdlers()].  With [_pending] empty, the flag not set and
    [_toShrink] positive, [_toShrink] goes down by one and the worker leaves
    [_idle] and is told to quit.  Otherwise the worker stays in [_idle]. *)
Theorem recycle_step (worker : Worker) (σ : World) :
  let σ' := _recycleWorker worker σ in
  let σ1 := setTeam (λ t, setIdle ({[worker]} ∪ _idle t) t) σ in
  match _pending (team σ) with
  | task :: rest =>
      ∃ w, w ∈ {[worker]} ∪ _idle (team σ) ∧
           σ' = _coordinateThisTask task
                  (emit (EvRetry task) (setTeam (setPending rest) σ1)) ∧
           _idle (team σ') = ({[worker]} ∪ _idle (team σ)) ∖ {[w]} ∧
           _pending (team σ') = rest ∧
           _busyCount (team σ') = _busyCount (team σ) + 1 ∧
           workers σ' = workers σ ++ [(w, task)] ∧
           trace σ' = trace σ ++ [EvRetry task; EvSubmit w task] ∧
           _toShrink (team σ') = _toShrink (team σ) ∧
           _quit (team σ') = _quit (team σ) ∧
           _coordinatorQuit (team σ') = _coordinatorQuit (team σ)
  | [] =>
      if isSet (_quit (team σ)) then σ' = _quitIdlers None σ1
      else if 0 <? _toShrink (team σ) then
        _toShrink (team σ') = _toShrink (team σ) - 1 ∧
        _idle (team σ') = ({[worker]} ∪ _idle (team σ)) ∖ {[worker]} ∧
        trace σ' = trace σ ++ [EvWorkerQuit worker] ∧
        _busyCount (team σ') = _busyCount (team σ) ∧
        _pending (team σ') = [] ∧
        workers σ' = workers σ
      else σ' = σ1
  end.
Proof.
  cbn zeta. destruct (_pending (team σ)) as [|task rest] eqn:Hp.
  - destruct (isSet (_quit (team σ))) eqn:Hq.
    + unfold _recycleWorker. cbn. rewrite Hp, Hq. reflexivity.
    + destruct (Z.ltb_spec 0 (_toShrink (team σ))) as [Hs|Hs].
      * rewrite (recycle_shrink _ _ Hp Hq Hs). cbn. rewrite Hp. repeat split.
      * unfold _recycleWorker. cbn. rewrite Hp, Hq.
        destruct (Z.gtb_spec (_toShrink (team σ)) 0); [lia|reflexivity].
  - destruct (recycle_pending worker _ _ _ Hp) as (w & Hw & Heq).
    exists w. split; [exact Hw|]. split.
    + unfold _recycleWorker. cbn. rewrite Hp. reflexivity.
    + rewrite Heq. cbn. rewrite <- app_assoc. repeat split.
Qed.

(** C5, as the code has it.  On the return of a worker from its task
    ([idleAndPending]) in a state with [_toShrink] positive, [_pending] empty
    and the quit flag not set, that worker is told to quit and is not in
    [_idle] afterwards, and [_toShrink] goes down by one. *)
Theorem shrink_debt_paid_on_clean_return (worker : Worker) (σ : World) :
  0 < _toShrink (team σ) →
  _pending (team σ) = [] →
  isSet (_quit (team σ)) = false →
  let σ' := idleAndPending worker σ in
  _toShrink (team σ') = _toShrink (team σ) - 1 ∧
  (worker ∉ _idle (team σ')) ∧
  _idle (team σ') = _idle (team σ) ∖ {[worker]} ∧
  trace σ' = trace σ ++ [EvWorkerQuit worker] ∧
  _busyCount (team σ') = _busyCount (team σ) - 1.
Proof.
  intros Hs Hp Hq. cbn zeta. unfold idleAndPending.
  rewrite recycle_shrink by (cbn; auto). cbn.
  repeat split; set_solver.
Qed.

(** C8.  A task that raises: [doWork] catches the exception on the worker
    and returns normally, [_logException] is called once, right after the
    call of the task, and the same [idleAndPending] item goes to the
    coordinator as for a task that returns, the team being left as it was;
    the caller of [Team.do] got its answer before and whatever the task
    does; the item then takes one off [_busyCount] and recycles the worker. *)
Theorem raising_task_is_contained (worker : Worker) (task : Task) (σ : World) :
  taskBody task = Raises →
  (∃ σ', doWork worker task σ = (Ok, σ') ∧
         trace σ' = trace σ ++ [EvRun worker task; EvLog worker task] ∧
         team σ' = team σ ∧
         factoryCalls σ' = factoryCalls σ ∧
         workers σ' = workers σ ∧
         coordinator σ' = coordinator σ ++ [IdleAndPending worker] ∧
         ∀ task0, taskBody task0 = Returns →
           ∃ σ0, doWork worker task0 σ = (Ok, σ0) ∧
                 trace σ0 = trace σ ++ [EvRun worker task0] ∧
                 team σ0 = team σ' ∧
                 factoryCalls σ0 = factoryCalls σ' ∧
                 workers σ0 = workers σ' ∧
                 coordinator σ0 = coordinator σ') ∧
  (∀ σ0, isSet (_quit (team σ0)) = false →
         do task σ0 = (Ok, coordinator_do (CoordinateThisTask task) σ0)) ∧
  (∀ σ0, perform (IdleAndPending worker) σ0 =
         _recycleWorker worker
           (setTeam (λ t, setBusyCount (_busyCount t - 1) t) σ0)).
Proof.
  intros Hr. split; [|split].
  - eexists. unfold doWork, callTask. rewrite Hr. split; [reflexivity|].
    cbn. rewrite <- app_assoc. repeat split.
    intros task0 H0. eexists. rewrite H0. split; [reflexivity|]. repeat split.
  - intros σ0 Hq. unfold do, Quit_check. rewrite Hq. reflexivity.
  - reflexivity.
Qed.

(** C10.  When [_recycleWorker] takes a task off [_pending] and dispatches
    it, [_idle] holds at least the worker just added: the dispatch takes a
    worker out of [_idle], the factory is not called, the task does not go
    back to [_pending], and its [doWork] item goes to that worker. *)
Theorem retry_always_finds_idle_worker
    (worker : Worker) (task : Task) (rest : list Task) (σ : World) :
  _pending (team σ) = task :: rest →
  let σ' := _recycleWorker worker σ in
  {[worker]} ∪ _idle (team σ) ≠ ∅ ∧
  factoryCalls σ' = factoryCalls σ ∧
  _pending (team σ') = rest ∧
  ∃ w, w ∈ {[worker]} ∪ _idle (team σ) ∧
       _idle (team σ') = ({[worker]} ∪ _idle (team σ)) ∖ {[w]} ∧
       workers σ' = workers σ ++ [(w, task)] ∧
       _busyCount (team σ') = _busyCount (team σ) + 1 ∧
       trace σ' = trace σ ++ [EvRetry task; EvSubmit w task].
Proof.
  intros Hp. cbn zeta.
  destruct (recycle_pending worker _ _ _ Hp) as (w & Hw & ->). cbn.
  split; [set_solver|]. repeat split.
  exists w. rewrite <- app_assoc. repeat split. exact Hw.
Qed.

(** ** Invariants of runs *)

(** A property [I] of worlds holds all along a run when the methods keep it.
    [P worker] is what holds where [_recycleWorker worker] is entered: after
    the factory has made the worker, or after the worker's [idleAndPending]
    item has left the coordinator's queue and [_busyCount] has gone down. *)
Section RunInvariant.

Variable I : World → Prop.
Variable P : Worker → World → Prop.

Hypothesis I_quitIdlers : ∀ n σ, I σ → I (_quitIdlers n σ).
Hypothesis I_coordinate : ∀ task σ, I σ → I (_coordinateThisTask task σ).
Hypothesis I_recycle : ∀ w σ, P w σ → I (_recycleWorker w σ).
Hypothesis I_factory : ∀ σ, I σ →
  match callFactory σ with
  | (Some w, σ1) => P w σ1
  | (None, σ1) => I σ1
  end.
Hypothesis I_return : ∀ w q σ,
  coordinator σ = IdleAndPending w :: q → I σ →
  P w (setTeam (λ t, setBusyCount (_busyCount t - 1) t) (setCoordinator q σ)).
Hypothesis I_next : ∀ item q σ,
  coordinator σ = item :: q → (∀ w, item ≠ IdleAndPending w) → I σ →
  I (setCoordinator q σ).
Hypothesis I_accept : ∀ item σ,
  (∀ w, item ≠ IdleAndPending w) → I σ → I (coordinator_do item σ).
Hypothesis I_quit_set : ∀ σ,
  I σ → I (setTeam (setQuit {| isSet := true |}) σ).
Hypothesis I_doWork : ∀ w task q σ,
  takeFor w (workers σ) = Some (task, q) → I σ →
  I (snd (doWork w task (setWorkers q σ))).

Lemma createOneWorker_invariant (k : nat) (σ : World) :
  I σ → I (createOneWorker k σ).
Proof.
  revert σ. induction k as [|k IH]; intros σ Hσ; [exact Hσ|].
  cbn [createOneWorker]. specialize (I_factory σ Hσ).
  destruct (callFactory σ) as [[w|] σ1]; [|exact I_factory].
  apply IH, I_recycle, I_factory.
Qed.

Lemma step_invariant (σ : World) (s : Step) : I σ → I (step σ s).
Proof.
  intros Hσ. destruct s as [task|n|n| | |w]; cbn [step].
  - unfold do. destruct (Quit_check _); [|exact Hσ].
    apply I_accept; [discriminate|exact Hσ].
  - unfold grow. destruct (Quit_check _); [|exact Hσ].
    apply I_accept; [discriminate|exact Hσ].
  - unfold shrink. destruct (Quit_check _); [|exact Hσ].
    apply I_accept; [discriminate|exact Hσ].
  - unfold quit, Quit_set. destruct (Quit_check _); [|exact Hσ].
    apply I_accept; [discriminate|]. apply I_quit_set, Hσ.
  - destruct (coordinator σ) as [|item q] eqn:Hq; [exact Hσ|].
    destruct item as [n|n|task|w]; cbn [perform].
    + apply createOneWorker_invariant. eapply I_next; eauto; discriminate.
    + apply I_quitIdlers. eapply I_next; eauto; discriminate.
    + apply I_coordinate. eapply I_next; eauto; discriminate.
    + unfold idleAndPending. apply I_recycle. apply I_return; auto.
  - destruct (takeFor w (workers σ)) as [[task q]|] eqn:Hw; [|exact Hσ].
    eapply I_doWork; eauto.
Qed.

Lemma run_invariant (steps : list Step) (σ : World) :
  I σ → I (run steps σ).
Proof.
  revert σ. induction steps as [|s steps IH]; intros σ Hσ; [exact Hσ|].
  cbn. apply IH, step_invariant, Hσ.
Qed.

End RunInvariant.

(** ** [_quitIdlers] touches [_idle], [_toShrink], [_coordinatorQuit] only *)

Lemma quitOneIdler_keepsBusy (σ0 σ : World) :
  keepsBusy σ0 σ → keepsBusy σ0 (quitOneIdler σ).
Proof.
  unfold keepsBusy.
  destruct (quitOneIdler_cases σ) as [(_ & ->)|(w & _ & ->)]; cbn; auto.
Qed.

Lemma retireCoordinator_keepsBusy (n : option Z) (σ0 σ : World) :
  keepsBusy σ0 σ → keepsBusy σ0 (retireCoordinator n σ).
Proof.
  unfold keepsBusy, retireCoordinator.
  destruct (_ && _); cbn; auto.
Qed.

Lemma quitIdlers_keepsBusy (n : option Z) (σ : World) :
  keepsBusy σ (_quitIdlers n σ).
Proof.
  unfold _quitIdlers. apply retireCoordinator_keepsBusy.
  apply Nat.iter_invariant.
  - intros σ'. apply quitOneIdler_keepsBusy.
  - repeat split.
Qed.

(** ** [_busyCount] counts the busy workers *)

Lemma takeFor_Some (w : Worker) (q q' : list (Worker * Task)) (task : Task) :
  takeFor w q = Some (task, q') → q ≡ₚ (w, task) :: q'.
Proof.
  revert q'. induction q as [|[w0 t0] q IH]; intros q'; cbn; [discriminate|].
  destruct (decide (w0 = w)) as [->|Hne].
  - intros [= -> ->]. reflexivity.
  - destruct (takeFor w q) as [[t1 q1]|]; [|discriminate].
    intros [= -> <-]. rewrite (IH q1 eq_refl). apply Permutation_swap.
Qed.

Lemma returning_app (q q' : list CoordItem) :
  returning (q ++ q') = returning q ++ returning q'.
Proof. apply omap_app. Qed.

Lemma Accounting_quitIdlers (n : option Z) (σ : World) :
  Accounting σ → Accounting (_quitIdlers n σ).
Proof.
  unfold Accounting, busyWorkers.
  destruct (quitIdlers_keepsBusy n σ) as (-> & _ & _ & -> & -> & _). auto.
Qed.

Lemma Accounting_coordinate (task : Task) (σ : World) :
  Accounting σ → Accounting (_coordinateThisTask task σ).
Proof.
  unfold Accounting, busyWorkers, returning. intros H.
  destruct (coordinate_cases task σ)
    as [(w & Hw & ->)|[(He & w & Hc & ->)|(He & Hc & ->)]]; cbn;
    rewrite ?fmap_app, ?length_app in *; cbn; lia.
Qed.

Lemma Accounting_recycle (w : Worker) (σ : World) :
  Accounting σ → Accounting (_recycleWorker w σ).
Proof.
  intros H. unfold _recycleWorker. cbn.
  destruct (_pending (team σ)) as [|task rest].
  - destruct (isSet (_quit (team σ))).
    + apply Accounting_quitIdlers. exact H.
    + destruct (_ >? 0); exact H.
  - apply Accounting_coordinate. exact H.
Qed.

Lemma Accounting_return (w : Worker) (q : list CoordItem) (σ : World) :
  coordinator σ = IdleAndPending w :: q → Accounting σ →
  Accounting (setTeam (λ t, setBusyCount (_busyCount t - 1) t)
                (setCoordinator q σ)).
Proof.
  intros Hq. unfold Accounting, busyWorkers. cbn. rewrite Hq. cbn.
  rewrite !length_app. cbn. lia.
Qed.

Lemma Accounting_next (item : CoordItem) (q : list CoordItem) (σ : World) :
  coordinator σ = item :: q → (∀ w, item ≠ IdleAndPending w) →
  Accounting σ → Accounting (setCoordinator q σ).
Proof.
  intros Hq Hi. unfold Accounting, busyWorkers. cbn. rewrite Hq.
  destruct item; cbn; try done. exfalso. eapply Hi. reflexivity.
Qed.

Lemma Accounting_accept (item : CoordItem) (σ : World) :
  (∀ w, item ≠ IdleAndPending w) →
  Accounting σ → Accounting (coordinator_do item σ).
Proof.
  intros Hi. unfold Accounting, busyWorkers. cbn. rewrite returning_app.
  destruct item; cbn; rewrite ?app_nil_r; try done.
  exfalso. eapply Hi. reflexivity.
Qed.

Lemma Accounting_doWork (w : Worker) (task : Task) (q : list (Worker * Task))
    (σ : World) :
  takeFor w (workers σ) = Some (task, q) → Accounting σ →
  Accounting (snd (doWork w task (setWorkers q σ))).
Proof.
  intros Hq. apply takeFor_Some in Hq.
  unfold Accounting, busyWorkers, doWork, returning. cbn. intros H.
  rewrite Hq in H. cbn in H. rewrite length_app in H.
  destruct (callTask task); cbn; rewrite omap_app, !length_app; cbn; lia.
Qed.

Lemma Accounting_run (steps : list Step) (σ : World) :
  Accounting σ → Accounting (run steps σ).
Proof.
  apply (run_invariant Accounting (λ _, Accounting)).
  - apply Accounting_quitIdlers.
  - apply Accounting_coordinate.
  - apply Accounting_recycle.
  - intros σ' H. unfold callFactory.
    destruct (createWorker _ _); exact H.
  - apply Accounting_return.
  - apply Accounting_next.
  - apply Accounting_accept.
  - intros σ' H. exact H.
  - apply Accounting_doWork.
Qed.

Lemma Accounting_fresh : Accounting fresh.
Proof. reflexivity. Qed.

(** ** The coordinator is told to quit at most once, and where *)

Lemma Retirement_same (σ σ' : World) :
  coordinatorQuits (trace σ') = coordinatorQuits (trace σ) →
  _coordinatorQuit (team σ') = _coordinatorQuit (team σ) →
  Retirement σ → Retirement σ'.
Proof. unfold Retirement. intros -> ->. auto. Qed.

Ltac same_retirement :=
  eapply Retirement_same; [| |eassumption];
  [cbn; unfold coordinatorQuits; rewrite ?omap_app; cbn;
   rewrite ?app_nil_r; reflexivity
  |reflexivity].

Lemma Retirement_quitOneIdler (σ : World) :
  Retirement σ → Retirement (quitOneIdler σ).
Proof.
  intros H.
  destruct (quitOneIdler_cases σ) as [(_ & ->)|(w & _ & ->)]; same_retirement.
Qed.

Lemma quitLoop_idle (k : nat) (σ : World) :
  size (_idle (team (Nat.iter k quitOneIdler σ)))
    = (size (_idle (team σ)) - k)%nat.
Proof.
  induction k as [|k IH]; simpl Nat.iter; [lia|].
  destruct (quitOneIdler_cases (Nat.iter k quitOneIdler σ))
    as [(He & ->)|(w & Hw & ->)]; cbn [team setTeam emit _idle setIdle setToShrink].
  - rewrite He in *. rewrite size_empty in *. lia.
  - rewrite size_difference by set_solver. rewrite size_singleton. lia.
Qed.

Lemma Retirement_retireCoordinator (n : option Z) (σ : World) :
  (n = None → _busyCount (team σ) = 0 → size (_idle (team σ)) = 0%nat) →
  Retirement σ → Retirement (retireCoordinator n σ).
Proof.
  intros Hidle [Hlen Hall]. unfold retireCoordinator.
  destruct (_coordinatorQuit (team σ)) eqn:Hcq; cbn [negb andb];
    [split; auto; rewrite Hcq; auto|].
  destruct (Z.eqb_spec (_busyCount (team σ)) 0) as [Hb|]; cbn [andb];
    [|split; auto; rewrite Hcq; auto].
  destruct (Z.eqb_spec (Z.of_nat (length (_pending (team σ)))) 0) as [Hp|];
    cbn [andb]; [|split; auto; rewrite Hcq; auto].
  destruct (isSet (_quit (team σ))) eqn:Hq;
    [|split; auto; rewrite Hcq; auto].
  unfold Retirement, coordinatorQuits in *. cbn. rewrite omap_app. cbn.
  split.
  - rewrite length_app, Hlen. reflexivity.
  - apply Forall_app. split; [exact Hall|].
    apply Forall_singleton. unfold goodRetirement. cbn.
    repeat split; auto. intros Hn. rewrite (Hidle Hn Hb). reflexivity.
Qed.

Lemma Retirement_quitIdlers (n : option Z) (σ : World) :
  Retirement σ → Retirement (_quitIdlers n σ).
Proof.
  intros H. unfold _quitIdlers. apply Retirement_retireCoordinator.
  - intros -> Hb. rewrite quitLoop_idle.
    assert (Hk : keepsBusy σ
              (Nat.iter (Z.to_nat (Z.of_nat (size (_idle (team σ)))
                                   + _busyCount (team σ)))
                 quitOneIdler σ)).
    { apply Nat.iter_invariant; [intros ?; apply quitOneIdler_keepsBusy|].
      repeat split. }
    destruct Hk as (Hk & _). rewrite Hk in Hb. rewrite Hb. lia.
  - apply Nat.iter_invariant; [|exact H].
    intros ?. apply Retirement_quitOneIdler.
Qed.

Lemma Retirement_coordinate (task : Task) (σ : World) :
  Retirement σ → Retirement (_coordinateThisTask task σ).
Proof.
  intros H.
  destruct (coordinate_cases task σ)
    as [(w & Hw & ->)|[(He & w & Hc & ->)|(He & Hc & ->)]]; same_retirement.
Qed.

Lemma Retirement_recycle (w : Worker) (σ : World) :
  Retirement σ → Retirement (_recycleWorker w σ).
Proof.
  intros H. unfold _recycleWorker. cbn.
  destruct (_pending (team σ)) as [|task rest].
  - destruct (isSet (_quit (team σ))).
    + apply Retirement_quitIdlers. same_retirement.
    + destruct (_ >? 0); same_retirement.
  - apply Retirement_coordinate. same_retirement.
Qed.

Lemma Retirement_run (steps : list Step) :
  Retirement (run steps fresh).
Proof.
  apply (run_invariant Retirement (λ _, Retirement)).
  - apply Retirement_quitIdlers.
  - apply Retirement_coordinate.
  - apply Retirement_recycle.
  - intros σ H. unfold callFactory.
    destruct (createWorker _ _); same_retirement.
  - intros w q σ Hq H. same_retirement.
  - intros item q σ Hq Hi H. same_retirement.
  - intros item σ Hi H. same_retirement.
  - intros σ H. same_retirement.
  - intros w task q σ Hq H. unfold doWork.
    destruct (callTask task); same_retirement.
  - split; [reflexivity|constructor].
Qed.

(** ** [_pending] and the workers' queues are first in, first out *)

Lemma quitIdlers_quiet {A : Type} (f : Event → option A) (n : option Z) (σ : World) :
  (∀ w, f (EvWorkerQuit w) = None) →
  (∀ n q s, f (EvCoordinatorQuit n q s) = None) →
  omap f (trace (_quitIdlers n σ)) = omap f (trace σ).
Proof.
  intros Hw Hc. unfold _quitIdlers.
  set (k := Z.to_nat _). clearbody k.
  assert (Hloop : omap f (trace (Nat.iter k quitOneIdler σ)) = omap f (trace σ)).
  { induction k as [|k IH]; simpl Nat.iter; [reflexivity|].
    destruct (quitOneIdler_cases (Nat.iter k quitOneIdler σ))
      as [(_ & ->)|(w & _ & ->)]; cbn [trace setTeam emit]; [exact IH|].
    rewrite omap_app. cbn. rewrite Hw, app_nil_r. exact IH. }
  unfold retireCoordinator. destruct (_ && _); [|exact Hloop].
  cbn [trace setTeam emit]. rewrite omap_app. cbn.
  rewrite Hc, app_nil_r. exact Hloop.
Qed.

Lemma takeFor_queueOf (w w0 : Worker) (q q' : list (Worker * Task)) (task : Task) :
  takeFor w q = Some (task, q') →
  queueOf w0 q = (if decide (w = w0) then [task] else []) ++ queueOf w0 q'.
Proof.
  revert q'. induction q as [|[w1 t1] q IH]; intros q'; cbn; [discriminate|].
  destruct (decide (w1 = w)) as [->|Hne].
  - intros [= -> ->]. unfold queueOf. cbn.
    destruct (decide (w = w0)); reflexivity.
  - destruct (takeFor w q) as [[t2 q2]|]; [|discriminate].
    intros [= -> <-]. specialize (IH q2 eq_refl).
    unfold queueOf in *. cbn. rewrite IH.
    destruct (decide (w = w0)) as [->|]; cbn; [|reflexivity].
    destruct (decide (w1 = w0)); [contradiction|reflexivity].
Qed.

Ltac readings :=
  unfold backlogged, retried, submittedTo, ranOn, queueOf in *;
  cbn [trace team workers setTeam emit worker_do coordinator_do setCoordinator
       setWorkers callFactory snd fst _pending setPending setBusyCount setIdle
       setToShrink setQuit setCoordinatorQuit] in *;
  rewrite ?omap_app; cbn [omap list_omap fst snd]; rewrite ?app_nil_r.

Lemma Fifo_quitIdlers (n : option Z) (σ : World) :
  Fifo σ → Fifo (_quitIdlers n σ).
Proof.
  unfold Fifo, backlogged, retried, submittedTo, ranOn.
  destruct (quitIdlers_keepsBusy n σ) as (_ & -> & _ & -> & _).
  rewrite !quitIdlers_quiet by done.
  intros [H1 H2]. split; [exact H1|]. intros w.
  rewrite !quitIdlers_quiet by done. apply H2.
Qed.

Lemma Fifo_coordinate (task : Task) (σ : World) :
  Fifo σ → Fifo (_coordinateThisTask task σ).
Proof.
  intros [H1 H2].
  destruct (coordinate_cases task σ)
    as [(w & Hw & ->)|[(He & w & Hc & ->)|(He & Hc & ->)]];
    (split; [|intros w0; specialize (H2 w0)]); readings; cbn;
    rewrite ?app_nil_r; try assumption.
  - rewrite H2, <- app_assoc. destruct (decide (w = w0)); reflexivity.
  - rewrite H2, <- app_assoc. destruct (decide (w = w0)); reflexivity.
  - rewrite H1, <- app_assoc. reflexivity.
Qed.

Lemma Fifo_recycle (w : Worker) (σ : World) :
  Fifo σ → Fifo (_recycleWorker w σ).
Proof.
  intros [H1 H2]. unfold _recycleWorker. cbn.
  destruct (_pending (team σ)) as [|task rest] eqn:Hp.
  - destruct (isSet (_quit (team σ))).
    + apply Fifo_quitIdlers. split; [cbn; rewrite Hp; exact H1|exact H2].
    + destruct (_ >? 0); (split; [|intros w0; specialize (H2 w0)]);
        readings; rewrite ?Hp; assumption.
  - apply Fifo_coordinate. split; [|intros w0; specialize (H2 w0)]; readings.
    + rewrite H1, <- app_assoc. reflexivity.
    + assumption.
Qed.

Lemma Fifo_run (steps : list Step) :
  Fifo (run steps fresh).
Proof.
  apply (run_invariant Fifo (λ _, Fifo)).
  - apply Fifo_quitIdlers.
  - apply Fifo_coordinate.
  - apply Fifo_recycle.
  - intros σ [H1 H2]. unfold callFactory.
    destruct (createWorker _ _);
      (split; [|intros w0; specialize (H2 w0)]); readings; assumption.
  - intros w q σ Hq H. exact H.
  - intros item q σ Hq Hi H. exact H.
  - intros item σ Hi H. exact H.
  - intros σ H. exact H.
  - intros w task q σ Hq [H1 H2]. unfold doWork.
    destruct (callTask task);
      (split; [|intros w0; specialize (H2 w0);
                 rewrite (takeFor_queueOf _ w0 _ _ _ Hq) in H2]);
      readings; cbn; rewrite ?app_nil_r; try assumption;
      rewrite H2, <- app_assoc; destruct (decide (w = w0)); reflexivity.
  - split; [reflexivity|]. intros w. reflexivity.
Qed.

Lemma retriesServed_app (a b : list Event) :
  retriesServed a → retriesServed b → retriesServed (a ++ b).
Proof.
  intros Ha Hb. induction a as [|e a IH]; [exact Hb|].
  destruct e; cbn in *; try (apply IH; exact Ha).
  destruct Ha as [Hnext Ha]. split; [|apply IH; exact Ha].
  destruct a as [|[] a']; cbn in *; try contradiction. exact Hnext.
Qed.

Lemma retriesServed_emit (e : Event) (σ : World) :
  retriesServed [e] → retriesServed (trace σ) → retriesServed (trace (emit e σ)).
Proof. intros He Hσ. cbn. apply retriesServed_app; assumption. Qed.

Lemma Served_quitIdlers (n : option Z) (σ : World) :
  retriesServed (trace σ) → retriesServed (trace (_quitIdlers n σ)).
Proof.
  intros H. unfold _quitIdlers, retireCoordinator.
  set (k := Z.to_nat _). clearbody k.
  assert (Hloop : retriesServed (trace (Nat.iter k quitOneIdler σ))).
  { apply (Nat.iter_invariant k _ quitOneIdler
             (λ σ', retriesServed (trace σ'))); [|exact H].
    intros σ' H'.
    destruct (quitOneIdler_cases σ') as [(_ & ->)|(w & _ & ->)]; [exact H'|].
    apply retriesServed_emit; [exact I|exact H']. }
  destruct (_ && _); [|exact Hloop].
  apply retriesServed_emit; [exact I|exact Hloop].
Qed.

Lemma Served_coordinate (task : Task) (σ : World) :
  retriesServed (trace σ) → retriesServed (trace (_coordinateThisTask task σ)).
Proof.
  intros H.
  destruct (coordinate_cases task σ)
    as [(w & Hw & ->)|[(He & w & Hc & ->)|(He & Hc & ->)]];
    repeat (apply retriesServed_emit; [exact I|]); exact H.
Qed.

Lemma Served_recycle (w : Worker) (σ : World) :
  retriesServed (trace σ) → retriesServed (trace (_recycleWorker w σ)).
Proof.
  intros H. destruct (_pending (team σ)) as [|task rest] eqn:Hp.
  - unfold _recycleWorker. cbn. rewrite Hp.
    destruct (isSet (_quit (team σ))); [apply Served_quitIdlers; exact H|].
    destruct (_ >? 0); [|exact H].
    apply retriesServed_emit; [exact I|exact H].
  - destruct (recycle_pending w _ _ _ Hp) as (w' & _ & ->). cbn.
    rewrite <- app_assoc. apply retriesServed_app; [exact H|].
    cbn. auto.
Qed.

Lemma Served_run (steps : list Step) :
  retriesServed (trace (run steps fresh)).
Proof.
  apply (run_invariant (λ σ, retriesServed (trace σ))
           (λ _ σ, retriesServed (trace σ))).
  - apply Served_quitIdlers.
  - apply Served_coordinate.
  - apply Served_recycle.
  - intros σ H. unfold callFactory.
    destruct (createWorker _ _); (apply retriesServed_emit; [exact I|exact H]).
  - intros w q σ Hq H. exact H.
  - intros item q σ Hq Hi H. exact H.
  - intros item σ Hi H. exact H.
  - intros σ H. exact H.
  - intros w task q σ Hq H. unfold doWork.
    destruct (callTask task);
      repeat (apply retriesServed_emit; [exact I|]); exact H.
  - exact I.
Qed.

(** ** Idle plus busy is made minus retired *)

Lemma size_remove (s : gset Worker) (w : Worker) :
  w ∈ s → size s = S (size (s ∖ {[w]})).
Proof.
  intros Hw. rewrite (union_difference_singleton_L w s Hw) at 1.
  rewrite size_union by set_solver. rewrite size_singleton. reflexivity.
Qed.

Lemma size_add (s : gset Worker) (w : Worker) :
  w ∉ s → size ({[w]} ∪ s) = S (size s).
Proof.
  intros Hw. rewrite size_union by set_solver.
  rewrite size_singleton. reflexivity.
Qed.

Lemma madeBefore_mono (k k' : nat) (w : Worker) :
  (k ≤ k')%nat → madeBefore k w → madeBefore k' w.
Proof. intros Hk (i & s & Hi & Hc). exists i, s. split; [lia|exact Hc]. Qed.

Ltac counts :=
  unfold produced, retired in *;
  cbn [trace team workers setTeam emit worker_do coordinator_do setCoordinator
       setWorkers callFactory snd fst _idle _busyCount setPending setBusyCount
       setIdle setToShrink setQuit setCoordinatorQuit factoryCalls] in *;
  rewrite ?omap_app, ?length_app; cbn [omap list_omap length];
  rewrite ?app_nil_r.

Lemma Live_same (σ σ' : World) :
  busyWorkers σ' ≡ₚ busyWorkers σ →
  _idle (team σ') = _idle (team σ) →
  _busyCount (team σ') = _busyCount (team σ) →
  (factoryCalls σ ≤ factoryCalls σ')%nat →
  length (produced (trace σ')) = length (produced (trace σ)) →
  length (retired (trace σ')) = length (retired (trace σ)) →
  Live σ → Live σ'.
Proof.
  unfold Live. intros Hp -> -> Hk -> -> (Hnd & Hdis & Hmade & Heq).
  repeat split; [| | |exact Heq].
  - rewrite Hp. exact Hnd.
  - intros w Hw. apply Hdis. rewrite <- Hp. exact Hw.
  - intros w Hw. eapply madeBefore_mono; [exact Hk|]. apply Hmade.
    rewrite <- Hp. exact Hw.
Qed.

Lemma Live_quitOneIdler (σ : World) : Live σ → Live (quitOneIdler σ).
Proof.
  intros H.
  destruct (quitOneIdler_cases σ) as [(_ & ->)|(w & Hw & ->)].
  - eapply Live_same; [..|exact H]; reflexivity.
  - destruct H as (Hnd & Hdis & Hmade & Heq). unfold Live.
    rewrite (size_remove _ _ Hw) in Heq. counts.
    repeat split; [exact Hnd| | |lia].
    + intros w' Hw'. specialize (Hdis w' Hw'). set_solver.
    + intros w' Hw'. apply Hmade. set_solver.
Qed.

Lemma Live_quitIdlers (n : option Z) (σ : World) :
  Live σ → Live (_quitIdlers n σ).
Proof.
  intros H. unfold _quitIdlers.
  set (k := Z.to_nat _). clearbody k.
  assert (Hloop : Live (Nat.iter k quitOneIdler σ)).
  { apply Nat.iter_invariant; [|exact H]. intros ?. apply Live_quitOneIdler. }
  unfold retireCoordinator. destruct (_ && _); [|exact Hloop].
  eapply Live_same; [..|exact Hloop]; try reflexivity; counts; lia.
Qed.

Section Fresh.

Hypothesis createWorker_fresh : FreshWorkers.

Lemma made_now_is_new (σ : World) (w : Worker) :
  Live σ →
  createWorker (factoryCalls σ) (statistics (team σ)) = Some w →
  (w ∉ _idle (team σ)) ∧ (w ∉ busyWorkers σ).
Proof.
  intros (_ & _ & Hmade & _) Hc.
  split; intros Hw.
  - destruct (Hmade w (or_introl Hw)) as (i & s & Hi & Hc').
    pose proof (createWorker_fresh _ _ _ _ _ Hc Hc'). lia.
  - destruct (Hmade w (or_intror Hw)) as (i & s & Hi & Hc').
    pose proof (createWorker_fresh _ _ _ _ _ Hc Hc'). lia.
Qed.

Lemma busyWorkers_worker_do (w : Worker) (task : Task) (σ : World) :
  busyWorkers (worker_do w task σ) ≡ₚ w :: busyWorkers σ.
Proof.
  unfold busyWorkers. cbn. rewrite fmap_app. cbn.
  rewrite <- app_assoc. cbn. symmetry. apply Permutation_middle.
Qed.

Lemma Live_coordinate (task : Task) (σ : World) :
  Live σ → Live (_coordinateThisTask task σ).
Proof.
  intros H.
  destruct (coordinate_cases task σ)
    as [(w & Hw & ->)|[(He & w & Hc & ->)|(He & Hc & ->)]].
  - destruct H as (Hnd & Hdis & Hmade & Heq). unfold Live.
    setoid_rewrite busyWorkers_worker_do. rewrite (size_remove _ _ Hw) in Heq.
    unfold busyWorkers in *. counts.
    repeat split; [| | |lia].
    + apply NoDup_cons. split; [|exact Hnd].
      intros Hin. exact (Hdis w Hin Hw).
    + intros w' Hw'. apply elem_of_cons in Hw' as [->|Hw']; [set_solver|].
      specialize (Hdis w' Hw'). set_solver.
    + intros w' [Hw'|Hw']; [apply Hmade; set_solver|].
      apply elem_of_cons in Hw' as [->|Hw']; apply Hmade; auto.
  - destruct (made_now_is_new σ w H Hc) as [Hni Hnb].
    destruct H as (Hnd & Hdis & Hmade & Heq). unfold Live.
    setoid_rewrite busyWorkers_worker_do.
    unfold busyWorkers in *. counts. rewrite Hc. cbn [length].
    repeat split; [| | |lia].
    + apply NoDup_cons. split; [exact Hnb|exact Hnd].
    + intros w' Hw'. apply elem_of_cons in Hw' as [->|Hw']; auto.
    + intros w' Hw'.
      assert (Hcase : w' = w ∨ w' ∈ _idle (team σ)
                      ∨ w' ∈ (workers σ).*1 ++ returning (coordinator σ)).
      { destruct Hw' as [?|Hw']; [auto|].
        apply elem_of_cons in Hw' as [->|?]; auto. }
      destruct Hcase as [->|Hcase].
      * exists (factoryCalls σ), (statistics (team σ)). split; [lia|exact Hc].
      * eapply madeBefore_mono; [|apply Hmade; tauto]. lia.
  - eapply Live_same; [..|exact H]; try reflexivity; counts;
      rewrite ?Hc; cbn; lia.
Qed.

Lemma Live_recycle (w : Worker) (σ : World) :
  LivePre w σ → Live (_recycleWorker w σ).
Proof.
  intros (Hnd & Hdis & Hni & Hnb & Hmade & Heq).
  assert (H1 : Live (setTeam (λ t, setIdle ({[w]} ∪ _idle t) t) σ)).
  { unfold Live, busyWorkers in *. counts. rewrite (size_add _ _ Hni).
    repeat split; [exact Hnd| | |lia].
    - intros w' Hw'. specialize (Hdis w' Hw'). set_solver.
    - intros w' [Hw'|Hw']; apply Hmade; set_solver. }
  unfold _recycleWorker. cbn.
  destruct (_pending (team σ)) as [|task rest].
  - destruct (isSet (_quit (team σ))).
    + apply Live_quitIdlers. exact H1.
    + destruct (_ >? 0); [|exact H1].
      unfold Live, busyWorkers in *. counts.
      replace (({[w]} ∪ _idle (team σ)) ∖ {[w]}) with (_idle (team σ))
        by set_solver.
      repeat split; [exact Hnd|exact Hdis| |lia].
      intros w' Hw'. apply Hmade. tauto.
  - apply Live_coordinate.
    eapply Live_same; [..|exact H1]; try reflexivity; counts; lia.
Qed.

Lemma Live_run (steps : list Step) :
  Live (run steps fresh).
Proof.
  apply (run_invariant Live LivePre).
  - apply Live_quitIdlers.
  - apply Live_coordinate.
  - apply Live_recycle.
  - intros σ H. unfold callFactory.
    destruct (createWorker _ _) as [w|] eqn:Hc.
    + destruct (made_now_is_new σ w H Hc) as [Hni Hnb].
      destruct H as (Hnd & Hdis & Hmade & Heq).
      unfold LivePre, busyWorkers in *. counts.
      repeat split; [exact Hnd|exact Hdis|exact Hni|exact Hnb| |lia].
      intros w' [->|Hw'].
      * exists (factoryCalls σ), (statistics (team σ)). split; [lia|exact Hc].
      * eapply madeBefore_mono; [|apply Hmade; tauto]. lia.
    + eapply Live_same; [..|exact H]; try reflexivity; counts; lia.
  - intros w q σ Hq (Hnd & Hdis & Hmade & Heq).
    unfold LivePre, busyWorkers in *. counts. rewrite Hq in *.
    cbn [returning omap list_omap] in *.
    apply NoDup_app in Hnd as (Hn1 & Hn2 & Hn3).
    apply NoDup_cons in Hn3 as [Hn3 Hn4].
    repeat split; [| | | | |lia].
    + apply NoDup_app. repeat split; [exact Hn1| |exact Hn4].
      intros w' Hw' Hin. apply (Hn2 w' Hw'). set_solver.
    + intros w' Hw'. apply Hdis. set_solver.
    + apply Hdis. set_solver.
    + intros Hin. apply elem_of_app in Hin as [Hin|Hin]; [|contradiction].
      apply (Hn2 w Hin). set_solver.
    + intros w' Hw'. apply Hmade. set_solver.
  - intros item q σ Hq Hi H. eapply Live_same; [..|exact H]; try reflexivity.
    unfold busyWorkers. cbn. rewrite Hq.
    destruct item; cbn; try reflexivity. exfalso. eapply Hi. reflexivity.
  - intros item σ Hi H. eapply Live_same; [..|exact H]; try reflexivity.
    unfold busyWorkers. cbn. rewrite returning_app.
    destruct item; cbn; rewrite ?app_nil_r; try reflexivity.
    exfalso. eapply Hi. reflexivity.
  - intros σ H. eapply Live_same; [..|exact H]; reflexivity.
  - intros w task q σ Hq H. apply takeFor_Some in Hq. unfold doWork.
    assert (Hp : ∀ σ', workers σ' = q →
              coordinator σ' = coordinator σ ++ [IdleAndPending w] →
              busyWorkers σ' ≡ₚ busyWorkers σ).
    { intros σ' Hw' Hc'. unfold busyWorkers. rewrite Hw', Hc', Hq.
      rewrite returning_app. cbn.
      rewrite app_assoc. rewrite <- Permutation_cons_append. reflexivity. }
    destruct (callTask task); (eapply Live_same; [..|exact H]);
      try (apply Hp; reflexivity); try reflexivity; counts; lia.
  - unfold Live. cbn. repeat split; try constructor; set_solver.
Qed.

End Fresh.

(** ** After the quit *)

Lemma Accounting_nonneg (σ : World) : Accounting σ → 0 ≤ _busyCount (team σ).
Proof. unfold Accounting. lia. Qed.

Lemma retireCoordinator_settles (n : option Z) (σ : World) :
  let σ' := retireCoordinator n σ in
  _idle (team σ') = _idle (team σ) ∧
  _toShrink (team σ') = _toShrink (team σ) ∧
  (isSet (_quit (team σ)) = true →
   _busyCount (team σ') = 0 → _pending (team σ') = [] →
   _coordinatorQuit (team σ') = true).
Proof.
  cbn zeta. unfold retireCoordinator.
  destruct (_coordinatorQuit (team σ)) eqn:Hcq; cbn [negb andb]; [auto|].
  destruct (Z.eqb_spec (_busyCount (team σ)) 0) as [Hb|Hb]; cbn [andb];
    [|repeat split; intros; contradiction].
  destruct (Z.eqb_spec (Z.of_nat (length (_pending (team σ)))) 0) as [Hp|Hp];
    cbn [andb].
  - destruct (isSet (_quit (team σ))); cbn; repeat split; auto; discriminate.
  - repeat split. intros _ _ Hp'. rewrite Hp' in Hp. contradiction.
Qed.

Lemma quitIdlers_settles (n : option Z) (σ : World) :
  Accounting σ → isSet (_quit (team σ)) = true →
  (n = None ∨ _idle (team σ) = ∅) →
  QuitSettled (_quitIdlers n σ).
Proof.
  intros Ha Hq Hn. pose proof (Accounting_nonneg σ Ha) as Hb.
  split; [apply Accounting_quitIdlers, Ha|].
  destruct (quitIdlers_keepsBusy n σ) as (Hb' & Hp' & Hq' & _).
  split; [rewrite Hq'; exact Hq|].
  unfold _quitIdlers in *.
  set (k := Z.to_nat _) in *.
  destruct (retireCoordinator_settles n (Nat.iter k quitOneIdler σ))
    as (Hi & _ & Hcq).
  assert (Hk : keepsBusy σ (Nat.iter k quitOneIdler σ)).
  { apply Nat.iter_invariant; [intros ?; apply quitOneIdler_keepsBusy|].
    repeat split. }
  destruct Hk as (_ & _ & Hq'' & _).
  split; [|apply Hcq; rewrite Hq''; exact Hq].
  rewrite Hi. apply leibniz_equiv, size_empty_inv. rewrite quitLoop_idle.
  destruct Hn as [->|He]; [subst k; lia|].
  rewrite He, size_empty. lia.
Qed.

Lemma quitLoop_no_idle (k : nat) (σ : World) :
  _idle (team σ) = ∅ →
  Nat.iter k quitOneIdler σ
    = setTeam (λ t, setToShrink (_toShrink t + Z.of_nat k) t) σ.
Proof.
  intros He. induction k as [|k IH]; simpl Nat.iter.
  - destruct σ as [[] ? ? ? ?]. unfold setTeam, setToShrink. cbn.
    do 2 f_equal. lia.
  - rewrite IH. unfold quitOneIdler. cbn.
    destruct (decide (_idle (team σ) = ∅)); [|contradiction].
    unfold setTeam, setToShrink. cbn. do 2 f_equal. lia.
Qed.

(** In a settled team [_quitIdlers()] adds [_busyCount] to [_toShrink] and
    does nothing else. *)
Lemma quitIdlers_when_settled (σ : World) :
  QuitSettled σ →
  _quitIdlers None σ
    = setTeam (λ t, setToShrink (_toShrink t + _busyCount t) t) σ.
Proof.
  intros (Ha & Hq & He & Hcq). pose proof (Accounting_nonneg σ Ha) as Hb.
  unfold _quitIdlers. rewrite quitLoop_no_idle by exact He.
  rewrite He, size_empty. unfold retireCoordinator. cbn.
  replace (Z.of_nat (Z.to_nat (Z.of_nat 0 + _busyCount (team σ))))
    with (_busyCount (team σ)) by lia.
  destruct (_coordinatorQuit (team σ)) eqn:Hc; cbn [negb andb]; [reflexivity|].
  destruct (Z.eqb_spec (_busyCount (team σ)) 0) as [Hb0|]; [|reflexivity].
  destruct (_pending (team σ)) as [|task rest]; [|reflexivity].
  specialize (Hcq Hb0 eq_refl). discriminate.
Qed.

Lemma QuitSettled_coordinate (task : Task) (σ : World) :
  QuitSettled σ → QuitSettled (_coordinateThisTask task σ).
Proof.
  intros (Ha & Hq & He & Hcq). pose proof (Accounting_nonneg σ Ha) as Hb.
  split; [apply Accounting_coordinate, Ha|].
  destruct (coordinate_cases task σ)
    as [(w & Hw & ->)|[(_ & w & Hc & ->)|(_ & Hc & ->)]]; cbn.
  - rewrite He in Hw. set_solver.
  - repeat split; auto. lia.
  - repeat split; auto. intros _ Hp. destruct (_pending (team σ)); discriminate.
Qed.

Lemma QuitSettled_recycle (w : Worker) (σ : World) :
  QuitSettling σ → QuitSettled (_recycleWorker w σ).
Proof.
  intros (Ha & Hq & He).
  destruct (_pending (team σ)) as [|task rest] eqn:Hp.
  - unfold _recycleWorker. cbn. rewrite Hp, Hq.
    apply quitIdlers_settles; auto.
  - pose proof (Accounting_nonneg σ Ha) as Hb.
    split; [apply Accounting_recycle, Ha|].
    destruct (recycle_pending w _ _ _ Hp) as (w' & Hw' & ->). cbn.
    repeat split; auto; [|lia].
    rewrite He in *. set_solver.
Qed.

Lemma QuitSettled_run (steps : list Step) (σ : World) :
  QuitSettled σ → QuitSettled (run steps σ).
Proof.
  apply (run_invariant QuitSettled (λ _, QuitSettling)).
  - intros n σ' H. destruct H as (Ha & Hq & He & Hcq).
    apply quitIdlers_settles; auto.
  - apply QuitSettled_coordinate.
  - apply QuitSettled_recycle.
  - intros σ' (Ha & Hq & He & Hcq). unfold callFactory.
    destruct (createWorker _ _); repeat split; auto.
  - intros w q σ' Hc (Ha & Hq & He & Hcq).
    repeat split; auto. eapply Accounting_return; eauto.
  - intros item q σ' Hc Hi (Ha & Hq & He & Hcq).
    repeat split; auto. eapply Accounting_next; eauto.
  - intros item σ' Hi (Ha & Hq & He & Hcq).
    repeat split; auto. apply Accounting_accept; auto.
  - intros σ' (Ha & Hq & He & Hcq). repeat split; auto.
  - intros w task q σ' Hw (Ha & Hq & He & Hcq).
    split; [apply Accounting_doWork; auto|].
    unfold doWork. destruct (callTask task); cbn; auto.
Qed.

(** ** Claims about whole runs *)

Lemma run_app (steps steps' : list Step) (σ : World) :
  run (steps ++ steps') σ = run steps' (run steps σ).
Proof. apply fold_left_app. Qed.

(** C1, as the code has it.  Along every run from a new team the coordinator
    is told to quit at most once, namely when [_coordinatorQuit] goes up; at
    each such call the quit flag is set, [_busyCount] is zero and [_pending]
    is empty; and when the call is made by a [_quitIdlers()] without a
    number, as [Team.quit] and [_recycleWorker] call it, no worker is idle.
    And once a [_quitIdlers()] has been performed with the quit flag set,
    at every later point with [_busyCount] zero and [_pending] empty the
    coordinator has been told to quit, once. *)
Theorem coordinator_quits_once_when_drained :
  (∀ steps,
     let σ := run steps fresh in
     (length (coordinatorQuits (trace σ)) ≤ 1)%nat ∧
     length (coordinatorQuits (trace σ))
       = (if _coordinatorQuit (team σ) then 1 else 0)%nat ∧
     Forall goodRetirement (coordinatorQuits (trace σ))) ∧
  (∀ steps1 steps2 q,
     let σ1 := run steps1 fresh in
     let σ := run steps2 (step σ1 CoordinatorRuns) in
     isSet (_quit (team σ1)) = true →
     coordinator σ1 = QuitIdlers None :: q →
     _busyCount (team σ) = 0 → _pending (team σ) = [] →
     _idle (team σ) = ∅ ∧ length (coordinatorQuits (trace σ)) = 1%nat).
Proof.
  split.
  - intros steps. cbn zeta. destruct (Retirement_run steps) as [Hlen Hall].
    split; [|split; assumption].
    rewrite Hlen. destruct (_coordinatorQuit _); lia.
  - intros steps1 steps2 q. cbn zeta. intros Hq Hc Hb Hp.
    pose proof (Accounting_run steps1 fresh Accounting_fresh) as Ha.
    assert (Hs : QuitSettled
                   (run steps2 (step (run steps1 fresh) CoordinatorRuns))).
    { apply QuitSettled_run. cbn [step]. rewrite Hc. cbn [perform].
      apply quitIdlers_settles; auto.
      eapply Accounting_next; eauto; discriminate. }
    destruct Hs as (_ & _ & He & Hcq). split; [exact He|].
    destruct (Retirement_run (steps1 ++ CoordinatorRuns :: steps2))
      as [Hlen _].
    rewrite run_app in Hlen. cbn [run fold_left] in Hlen.
    fold (run steps2 (step (run steps1 fresh) CoordinatorRuns)) in Hlen.
    rewrite Hlen, (Hcq Hb Hp). reflexivity.
Qed.

(** C6, as the code has it.  Along every run from a new team the tasks
    taken off [_pending] are, in that order, the first of the tasks put on
    it, the others being those still in [_pending]; every task taken off
    [_pending] is handed to a worker at once; and each worker runs the tasks
    handed to it in the order it got them. *)
Theorem backlog_is_dispatched_in_order (steps : list Step) :
  let σ := run steps fresh in
  backlogged (trace σ) = retried (trace σ) ++ _pending (team σ) ∧
  retriesServed (trace σ) ∧
  ∀ w, submittedTo w (trace σ) = ranOn w (trace σ) ++ queueOf w (workers σ).
Proof.
  cbn zeta. destruct (Fifo_run steps) as [H1 H2].
  split; [exact H1|]. split; [apply Served_run|exact H2].
Qed.

(** C7.  With a factory that makes a new worker each time, at every point of
    every run from a new team, so also at the quiescent ones, the number of
    idle workers plus [_busyCount] is the number of workers the factory has
    made minus the number told to quit; [_busyCount] counts the busy
    workers, no worker is busy twice, and no busy worker is idle. *)
Theorem idle_plus_busy_is_made_minus_retired (steps : list Step) :
  FreshWorkers →
  let σ := run steps fresh in
  Z.of_nat (size (_idle (team σ))) + _busyCount (team σ)
    = Z.of_nat (length (produced (trace σ)))
      - Z.of_nat (length (retired (trace σ))) ∧
  _busyCount (team σ) = Z.of_nat (length (busyWorkers σ)) ∧
  NoDup (busyWorkers σ) ∧
  ∀ w, w ∈ busyWorkers σ → w ∉ _idle (team σ).
Proof.
  intros Hfresh. cbn zeta.
  destruct (Live_run Hfresh steps) as (Hnd & Hdis & _ & Heq).
  pose proof (Accounting_run steps fresh Accounting_fresh) as Ha.
  repeat split; assumption.
Qed.

(** ** What [shrink] does to the idle workers and the debt *)

Lemma quitLoop_closed (k : nat) (σ : World) :
  let σ' := Nat.iter k quitOneIdler σ in
  _toShrink (team σ') = _toShrink (team σ) + Z.of_nat (k - size (_idle (team σ))) ∧
  length (retired (trace σ'))
    = (length (retired (trace σ)) + k `min` size (_idle (team σ)))%nat ∧
  _idle (team σ') ⊆ _idle (team σ) ∧
  (∀ w, w ∈ _idle (team σ) → w ∉ _idle (team σ') → w ∈ retired (trace σ')) ∧
  (∀ w, w ∈ retired (trace σ') →
        w ∈ retired (trace σ) ∨ w ∈ _idle (team σ)).
Proof.
  cbn zeta. induction k as [|k IH]; simpl Nat.iter.
  - repeat split; [lia|lia|set_solver|set_solver|auto].
  - destruct IH as (Hts & Hlen & Hsub & Hout & Hin).
    pose proof (quitLoop_idle k σ) as Hsize.
    destruct (quitOneIdler_cases (Nat.iter k quitOneIdler σ))
      as [(He & ->)|(w & Hw & ->)];
      cbn [team trace setTeam emit _idle _toShrink setIdle setToShrink].
    + rewrite He, size_empty in Hsize.
      repeat split; [lia|lia|exact Hsub|exact Hout|exact Hin].
    + assert (Hpos : (0 < size (_idle (team (Nat.iter k quitOneIdler σ))))%nat).
      { rewrite (size_remove _ _ Hw). lia. }
      unfold retired in *. rewrite omap_app, length_app.
      change (omap _ [EvWorkerQuit w]) with [w]. cbn [length].
      repeat split; [lia|lia|set_solver| |].
      * intros w' Hw' Hn. apply elem_of_app.
        destruct (decide (w' = w)) as [->|Hne]; [right; set_solver|].
        left. apply Hout; [exact Hw'|]. set_solver.
      * intros w' Hw'. apply elem_of_app in Hw' as [Hw'|Hw'];
          [apply Hin, Hw'|].
        right. apply list_elem_of_singleton in Hw' as ->. set_solver.
Qed.

Lemma retireCoordinator_retired (n : option Z) (σ : World) :
  retired (trace (retireCoordinator n σ)) = retired (trace σ).
Proof.
  unfold retireCoordinator. destruct (_ && _); [|reflexivity].
  unfold retired. cbn. rewrite omap_app. cbn. apply app_nil_r.
Qed.

(** X1.  [_quitIdlers(n)], the body of [shrink(n)]: of the [n] workers asked for
    it tells as many idle workers to quit as there are, and adds what is
    left of [n] to [_toShrink]; a number that is not positive asks for
    nothing, and no number asks for every idle and every busy worker.  The
    workers told to quit are those that leave [_idle]; [_busyCount] and
    [_pending] stay. *)
Theorem quitIdlers_retires_idle_then_owes (n : option Z) (σ : World) :
  let count :=
    Z.to_nat (match n with
              | None => Z.of_nat (size (_idle (team σ))) + _busyCount (team σ)
              | Some n => n
              end) in
  let σ' := _quitIdlers n σ in
  size (_idle (team σ')) = (size (_idle (team σ)) - count)%nat ∧
  _toShrink (team σ')
    = _toShrink (team σ) + Z.of_nat (count - size (_idle (team σ))) ∧
  length (retired (trace σ'))
    = (length (retired (trace σ)) + count `min` size (_idle (team σ)))%nat ∧
  _idle (team σ') ⊆ _idle (team σ) ∧
  (∀ w, w ∈ _idle (team σ) → w ∉ _idle (team σ') → w ∈ retired (trace σ')) ∧
  _busyCount (team σ') = _busyCount (team σ) ∧
  _pending (team σ') = _pending (team σ).
Proof.
  cbn zeta. destruct (quitIdlers_keepsBusy n σ) as (Hb & Hp & _).
  unfold _quitIdlers in *. set (k := Z.to_nat _) in *. clearbody k.
  destruct (retireCoordinator_settles n (Nat.iter k quitOneIdler σ))
    as (-> & -> & _).
  rewrite retireCoordinator_retired.
  destruct (quitLoop_closed k σ) as (Hts & Hlen & Hsub & Hout & _).
  rewrite quitLoop_idle. repeat split; assumption.
Qed.

(** ** The debt and the counts are never negative *)

Lemma quitIdlers_toShrink (n : option Z) (σ : World) :
  _toShrink (team σ) ≤ _toShrink (team (_quitIdlers n σ)).
Proof.
  unfold _quitIdlers. set (k := Z.to_nat _). clearbody k.
  destruct (retireCoordinator_settles n (Nat.iter k quitOneIdler σ))
    as (_ & -> & _).
  destruct (quitLoop_closed k σ) as (-> & _). lia.
Qed.

Lemma coordinate_keeps (task : Task) (σ : World) :
  let σ' := _coordinateThisTask task σ in
  _toShrink (team σ') = _toShrink (team σ) ∧
  _quit (team σ') = _quit (team σ) ∧
  coordinator σ' = coordinator σ ∧
  retired (trace σ') = retired (trace σ) ∧
  logged (trace σ') = logged (trace σ) ∧
  ran (trace σ') = ran (trace σ).
Proof.
  cbn zeta.
  destruct (coordinate_cases task σ)
    as [(w & Hw & ->)|[(He & w & Hc & ->)|(He & Hc & ->)]];
    unfold retired, logged, ran; cbn; rewrite ?omap_app; cbn;
    rewrite ?app_nil_r; repeat split.
Qed.

Lemma toShrink_nonneg_run (steps : list Step) (σ : World) :
  0 ≤ _toShrink (team σ) → 0 ≤ _toShrink (team (run steps σ)).
Proof.
  apply (run_invariant (λ σ, 0 ≤ _toShrink (team σ))
           (λ _ σ, 0 ≤ _toShrink (team σ))).
  - intros n σ' H. pose proof (quitIdlers_toShrink n σ'). lia.
  - intros task σ' H. destruct (coordinate_keeps task σ') as (-> & _). exact H.
  - intros w σ' H. unfold _recycleWorker. cbn.
    destruct (_pending (team σ')) as [|task rest].
    + destruct (isSet (_quit (team σ'))).
      * match goal with |- 0 ≤ _toShrink (team (_quitIdlers ?n ?s)) =>
          pose proof (quitIdlers_toShrink n s) as Hq end.
        cbn in Hq. lia.
      * destruct (Z.gtb_spec (_toShrink (team σ')) 0); cbn; lia.
    + match goal with |- 0 ≤ _toShrink (team (_coordinateThisTask ?t ?s)) =>
        destruct (coordinate_keeps t s) as (-> & _) end.
      exact H.
  - intros σ' H. unfold callFactory. destruct (createWorker _ _); exact H.
  - intros w q σ' _ H. exact H.
  - intros item q σ' _ _ H. exact H.
  - intros item σ' _ H. exact H.
  - intros σ' H. exact H.
  - intros w task q σ' _ H. unfold doWork. destruct (callTask task); exact H.
Qed.

(** X2.  Along every run from a new team [_toShrink] and [_busyCount] are never
    negative, and what [statistics()] gives as busy is the number of workers
    that hold a task or wait to be recycled, whatever the factory does. *)
Theorem counts_are_never_negative (steps : list Step) :
  let σ := run steps fresh in
  0 ≤ _toShrink (team σ) ∧
  0 ≤ _busyCount (team σ) ∧
  busyWorkerCount (statistics (team σ)) = Z.of_nat (length (busyWorkers σ)).
Proof.
  cbn zeta. pose proof (Accounting_run steps fresh Accounting_fresh) as Ha.
  split; [apply toShrink_nonneg_run; reflexivity|].
  split; [apply Accounting_nonneg, Ha|exact Ha].
Qed.

(** ** No task waits while a worker is idle *)

Lemma NoIdleWait_quitIdlers (n : option Z) (σ : World) :
  NoIdleWait σ → NoIdleWait (_quitIdlers n σ).
Proof.
  unfold NoIdleWait.
  destruct (quitIdlers_keepsBusy n σ) as (_ & -> & _).
  intros [Hp|He]; [left; exact Hp|right].
  unfold _quitIdlers. set (k := Z.to_nat _). clearbody k.
  destruct (retireCoordinator_settles n (Nat.iter k quitOneIdler σ))
    as (-> & _).
  destruct (quitLoop_closed k σ) as (_ & _ & Hsub & _).
  rewrite He in Hsub. set_solver.
Qed.

Lemma NoIdleWait_coordinate (task : Task) (σ : World) :
  NoIdleWait σ → NoIdleWait (_coordinateThisTask task σ).
Proof.
  unfold NoIdleWait. intros H.
  destruct (coordinate_cases task σ)
    as [(w & Hw & ->)|[(He & w & Hc & ->)|(He & Hc & ->)]]; cbn; auto.
  destruct H as [Hp|He]; [left; exact Hp|]. rewrite He in Hw. set_solver.
Qed.

Lemma NoIdleWait_recycle (w : Worker) (σ : World) :
  NoIdleWait σ → NoIdleWait (_recycleWorker w σ).
Proof.
  intros H. destruct (_pending (team σ)) as [|task rest] eqn:Hp.
  - unfold _recycleWorker. cbn. rewrite Hp.
    destruct (isSet (_quit (team σ))).
    + unfold NoIdleWait. left.
      match goal with |- _pending (team (_quitIdlers ?n ?s)) = _ =>
        destruct (quitIdlers_keepsBusy n s) as (_ & -> & _) end.
      exact Hp.
    + destruct (_ >? 0); left; exact Hp.
  - destruct H as [H|He]; [rewrite Hp in H; discriminate|].
    destruct (recycle_pending w _ _ _ Hp) as (w' & Hw' & ->).
    right. cbn. rewrite He in *. set_solver.
Qed.

(** X3.  Along every run from a new team, between any two steps, either
    [_pending] is empty or [_idle] is: a task is put on [_pending] only when
    no worker is idle, and a worker that comes back or is made takes the
    head of [_pending] before it can stay idle. *)
Theorem no_task_waits_while_a_worker_is_idle (steps : list Step) :
  let σ := run steps fresh in
  _pending (team σ) = [] ∨ _idle (team σ) = ∅.
Proof.
  cbn zeta.
  apply (run_invariant NoIdleWait (λ _, NoIdleWait)).
  - apply NoIdleWait_quitIdlers.
  - apply NoIdleWait_coordinate.
  - apply NoIdleWait_recycle.
  - intros σ H. unfold callFactory. destruct (createWorker _ _); exact H.
  - intros w q σ _ H. exact H.
  - intros item q σ _ _ H. exact H.
  - intros item σ _ H. exact H.
  - intros σ H. exact H.
  - intros w task q σ _ H. unfold doWork. destruct (callTask task); exact H.
  - left. reflexivity.
Qed.

(** ** After [quit], for good *)

Lemma recycle_keeps (w : Worker) (σ : World) :
  let σ' := _recycleWorker w σ in
  _quit (team σ') = _quit (team σ) ∧
  coordinator σ' = coordinator σ ∧
  logged (trace σ') = logged (trace σ) ∧
  ran (trace σ') = ran (trace σ).
Proof.
  cbn zeta. destruct (_pending (team σ)) as [|task rest] eqn:Hp.
  - unfold _recycleWorker. cbn. rewrite Hp.
    destruct (isSet (_quit (team σ))).
    + match goal with |- context [_quitIdlers ?n ?s] =>
        destruct (quitIdlers_keepsBusy n s) as (_ & _ & -> & _ & -> & _) end.
      unfold logged, ran. rewrite !quitIdlers_quiet by done. repeat split.
    + destruct (_ >? 0); unfold logged, ran; cbn; rewrite ?omap_app; cbn;
        rewrite ?app_nil_r; repeat split.
  - destruct (recycle_pending w _ _ _ Hp) as (w' & _ & ->).
    unfold logged, ran. cbn. rewrite !omap_app. cbn.
    rewrite !app_nil_r. repeat split.
Qed.

Lemma quit_stays_set (steps : list Step) (σ : World) :
  isSet (_quit (team σ)) = true → isSet (_quit (team (run steps σ))) = true.
Proof.
  apply (run_invariant (λ σ, isSet (_quit (team σ)) = true)
           (λ _ σ, isSet (_quit (team σ)) = true)).
  - intros n σ' H.
    destruct (quitIdlers_keepsBusy n σ') as (_ & _ & -> & _). exact H.
  - intros task σ' H. destruct (coordinate_keeps task σ') as (_ & -> & _).
    exact H.
  - intros w σ' H. destruct (recycle_keeps w σ') as (-> & _). exact H.
  - intros σ' H. unfold callFactory. destruct (createWorker _ _); exact H.
  - intros w q σ' _ H. exact H.
  - intros item q σ' _ _ H. exact H.
  - intros item σ' _ H. exact H.
  - intros σ' H. reflexivity.
  - intros w task q σ' _ H. unfold doWork. destruct (callTask task); exact H.
Qed.

Lemma quit_sets_flag (σ : World) :
  isSet (_quit (team (snd (quit σ)))) = true.
Proof.
  unfold quit, Quit_set, Quit_check.
  destruct (isSet (_quit (team σ))) eqn:Hq; [exact Hq|reflexivity].
Qed.

Lemma quit_when_set (σ : World) :
  isSet (_quit (team σ)) = true → quit σ = (Raised PoolShuttingDown, σ).
Proof.
  intros Hq. unfold quit, Quit_set, Quit_check. rewrite Hq. reflexivity.
Qed.

(** C9, as the code has it, with [Quit.set] as the spec has it.
    [Team.quit] is one-shot: called with the quit flag not set it sets the
    flag and hands [_quitIdlers()] to the coordinator; called with the flag
    set it raises the shutting-down error at its first statement, hands
    nothing to the coordinator and leaves the world, with every field of
    the team, as it is.  And after a call of [Team.quit], whatever the
    callers, the coordinator and the workers do next, a further call
    raises in that way. *)
Theorem quit_is_one_shot (steps : list Step) (σ : World) :
  quit σ
    = (if isSet (_quit (team σ))
       then (Raised PoolShuttingDown, σ)
       else (Ok, coordinator_do (QuitIdlers None)
                   (setTeam (setQuit {| isSet := true |}) σ))) ∧
  let σ' := run steps (snd (quit σ)) in
  quit σ' = (Raised PoolShuttingDown, σ') ∧
  step σ' CallQuit = σ'.
Proof.
  split.
  - unfold quit, Quit_set, Quit_check.
    destruct (isSet (_quit (team σ))); reflexivity.
  - cbn zeta.
    assert (H : isSet (_quit (team (run steps (snd (quit σ))))) = true).
    { apply quit_stays_set, quit_sets_flag. }
    pose proof (quit_when_set _ H) as Hr.
    split; [exact Hr|]. cbn [step]. rewrite Hr. reflexivity.
Qed.

(** X4.  Nothing ever resets the quit flag: after a call of [Team.quit], whatever
    the callers, the coordinator and the workers do next, [do], [grow] and
    [shrink] raise the shutting-down error and leave the world as it is. *)
Theorem quit_is_final (steps : list Step) (σ : World) (task : Task)
    (n : Z) (m : option Z) :
  let σ' := run steps (snd (quit σ)) in
  do task σ' = (Raised PoolShuttingDown, σ') ∧
  grow n σ' = (Raised PoolShuttingDown, σ') ∧
  shrink m σ' = (Raised PoolShuttingDown, σ').
Proof.
  cbn zeta.
  assert (H : isSet (_quit (team (run steps (snd (quit σ))))) = true).
  { apply quit_stays_set, quit_sets_flag. }
  unfold do, grow, shrink, Quit_check. rewrite H. repeat split.
Qed.

(** ** Every task that raises is reported, once *)

(** X5.  Along every run from a new team the tasks [_logException] was called
    for are, in the order they ran, the tasks that ran and raised: each of
    them once, and no task that returned. *)
Theorem raising_tasks_are_reported_once (steps : list Step) :
  let σ := run steps fresh in
  logged (trace σ) = raisingOnes (ran (trace σ)).
Proof.
  cbn zeta.
  apply (run_invariant (λ σ, logged (trace σ) = raisingOnes (ran (trace σ)))
           (λ _ σ, logged (trace σ) = raisingOnes (ran (trace σ)))).
  - intros n σ H. unfold logged, ran in *.
    rewrite !quitIdlers_quiet by done. exact H.
  - intros task σ H.
    destruct (coordinate_keeps task σ) as (_ & _ & _ & _ & -> & ->). exact H.
  - intros w σ H. destruct (recycle_keeps w σ) as (_ & _ & -> & ->). exact H.
  - intros σ H. unfold callFactory.
    destruct (createWorker _ _); unfold logged, ran in *; cbn;
      rewrite !omap_app; cbn; rewrite !app_nil_r; exact H.
  - intros w q σ _ H. exact H.
  - intros item q σ _ _ H. exact H.
  - intros item σ _ H. exact H.
  - intros σ H. exact H.
  - intros w task q σ _ H. unfold doWork, callTask.
    destruct (taskBody task) eqn:Hb; unfold logged, ran in *; cbn;
      rewrite !omap_app; cbn; rewrite Hb; unfold raisingOnes in H;
      rewrite <- H, ?app_nil_r; reflexivity.
  - reflexivity.
Qed.

(** ** No task is lost, none is taken twice *)

Lemma keepsTasks_quitIdlers (n : option Z) (σ : World) :
  keepsTasks σ (_quitIdlers n σ).
Proof.
  unfold keepsTasks, held, ran.
  destruct (quitIdlers_keepsBusy n σ) as (_ & -> & -> & -> & -> & _).
  rewrite quitIdlers_quiet by done. split; [|split]; reflexivity.
Qed.

Lemma held_coordinate (task : Task) (σ : World) :
  held (_coordinateThisTask task σ) ≡ₚ task :: held σ.
Proof.
  unfold held, ran.
  destruct (coordinate_cases task σ)
    as [(w & Hw & ->)|[(He & w & Hc & ->)|(He & Hc & ->)]]; cbn;
    rewrite ?omap_app, ?fmap_app; cbn; rewrite ?app_nil_r.
  - rewrite <- !app_assoc. cbn. rewrite <- Permutation_middle.
    symmetry. apply Permutation_middle.
  - rewrite <- !app_assoc. cbn. rewrite <- Permutation_middle.
    symmetry. apply Permutation_middle.
  - rewrite <- !app_assoc. cbn. symmetry. apply Permutation_middle.
Qed.

Lemma keepsTasks_recycle (w : Worker) (σ : World) :
  keepsTasks σ (_recycleWorker w σ).
Proof.
  destruct (recycle_keeps w σ) as (Hq & Hc & _ & Hr).
  split; [exact Hc|]. split; [exact Hq|].
  destruct (_pending (team σ)) as [|task rest] eqn:Hp.
  - unfold _recycleWorker. cbn. rewrite Hp.
    destruct (isSet (_quit (team σ))).
    + match goal with |- held (_quitIdlers ?n ?s) ≡ₚ _ =>
        destruct (keepsTasks_quitIdlers n s) as (_ & _ & ->) end.
      unfold held. cbn. rewrite Hp. reflexivity.
    + destruct (_ >? 0); unfold held, ran; cbn; rewrite ?omap_app; cbn;
        rewrite ?app_nil_r, Hp; reflexivity.
  - unfold _recycleWorker. cbn. rewrite Hp. rewrite held_coordinate.
    unfold held, ran. cbn. rewrite Hp, omap_app. cbn.
    rewrite app_nil_r. reflexivity.
Qed.

Lemma keepsTasks_createOneWorker (k : nat) (σ : World) :
  keepsTasks σ (createOneWorker k σ).
Proof.
  apply (createOneWorker_invariant (keepsTasks σ) (λ _, keepsTasks σ)).
  - intros w σ' (Hc & Hq & Hh).
    destruct (keepsTasks_recycle w σ') as (Hc' & Hq' & Hh').
    repeat split; [rewrite Hc'; exact Hc|rewrite Hq'; exact Hq|].
    rewrite Hh'. exact Hh.
  - intros σ' H. unfold callFactory.
    destruct (createWorker _ _); unfold keepsTasks, held, ran in *; cbn;
      rewrite omap_app; cbn; rewrite app_nil_r; exact H.
  - split; [|split]; reflexivity.
Qed.

Lemma step_tasks (σ : World) (s : Step) :
  isSet (_quit (team (step σ s)))
    = match s with
      | CallQuit => true
      | _ => isSet (_quit (team σ))
      end ∧
  inFlight (step σ s)
    ≡ₚ match s with
       | CallDo task => if isSet (_quit (team σ)) then [] else [task]
       | _ => []
       end ++ inFlight σ.
Proof.
  destruct s as [task|n|n| | |w]; cbn [step].
  - unfold do, Quit_check. destruct (isSet (_quit (team σ))) eqn:Hq; cbn;
      [rewrite Hq; auto|].
    split; [exact Hq|]. unfold inFlight, queuedTasks. cbn.
    rewrite omap_app. cbn. rewrite <- app_assoc. cbn.
    symmetry. apply Permutation_middle.
  - unfold grow, Quit_check. destruct (isSet (_quit (team σ))) eqn:Hq; cbn;
      [rewrite Hq; auto|].
    split; [exact Hq|]. unfold inFlight, queuedTasks. cbn.
    rewrite omap_app. cbn. rewrite app_nil_r. reflexivity.
  - unfold shrink, Quit_check. destruct (isSet (_quit (team σ))) eqn:Hq; cbn;
      [rewrite Hq; auto|].
    split; [exact Hq|]. unfold inFlight, queuedTasks. cbn.
    rewrite omap_app. cbn. rewrite app_nil_r. reflexivity.
  - split; [apply quit_sets_flag|].
    unfold quit, Quit_set, Quit_check.
    destruct (isSet (_quit (team σ))); [reflexivity|].
    unfold inFlight, queuedTasks. cbn.
    rewrite omap_app. cbn. rewrite app_nil_r. reflexivity.
  - destruct (coordinator σ) as [|item q] eqn:Hc; [auto|].
    destruct item as [n|n|task|w]; cbn [perform].
    + destruct (keepsTasks_createOneWorker (Z.to_nat n) (setCoordinator q σ))
        as (Hc' & Hq' & Hh').
      unfold inFlight. rewrite Hc', Hq', Hh', Hc. auto.
    + destruct (keepsTasks_quitIdlers n (setCoordinator q σ))
        as (Hc' & Hq' & Hh').
      unfold inFlight. rewrite Hc', Hq', Hh', Hc. auto.
    + destruct (coordinate_keeps task (setCoordinator q σ))
        as (_ & Hq' & Hc' & _).
      unfold inFlight. rewrite Hc', Hq', held_coordinate, Hc.
      split; [reflexivity|]. cbn. symmetry. apply Permutation_middle.
    + unfold idleAndPending.
      match goal with |- context [_recycleWorker w ?s] =>
        destruct (keepsTasks_recycle w s) as (Hc' & Hq' & Hh') end.
      unfold inFlight. rewrite Hc', Hq', Hh', Hc. auto.
  - destruct (takeFor w (workers σ)) as [[task q]|] eqn:Hw; [|auto].
    apply takeFor_Some in Hw. unfold doWork, inFlight, held, queuedTasks, ran.
    destruct (callTask task); cbn; rewrite !omap_app; cbn;
      rewrite !app_nil_r, Hw; cbn; (split; [reflexivity|]);
      apply Permutation_app_head, Permutation_app_head;
      rewrite app_assoc; symmetry; apply Permutation_cons_append.
Qed.

Lemma run_tasks (steps : list Step) (σ : World) :
  inFlight (run steps σ) ≡ₚ accepted (isSet (_quit (team σ))) steps ++ inFlight σ.
Proof.
  revert σ. induction steps as [|s steps IH]; intros σ; [reflexivity|].
  cbn [run fold_left]. fold (run steps (step σ s)). rewrite IH.
  destruct (step_tasks σ s) as [-> ->].
  destruct s; cbn [accepted]; try reflexivity.
  destruct (isSet (_quit (team σ))); [reflexivity|].
  cbn. symmetry. apply Permutation_middle.
Qed.

(** X6.  Along every run from a new team the tasks taken by the calls of
    [Team.do] made before the first [Team.quit] are, each as often as it was
    taken, the tasks that wait in the coordinator's queue, wait in
    [_pending], wait on a worker, or have run: no task is lost, none runs
    twice, none is made up, and a task refused after [quit] never runs. *)
Theorem no_task_is_lost_or_run_twice (steps : list Step) :
  let σ := run steps fresh in
  queuedTasks (coordinator σ) ++ _pending (team σ) ++ (workers σ).*2
    ++ ran (trace σ)
  ≡ₚ accepted false steps.
Proof.
  cbn zeta. pose proof (run_tasks steps fresh) as H.
  unfold inFlight, held in H. rewrite H. cbn. rewrite app_nil_r.
  reflexivity.
Qed.

(** ** What [grow] does *)

Lemma recycle_takes_head (w : Worker) (task : Task) (rest : list Task)
    (σ : World) :
  _idle (team σ) = ∅ → _pending (team σ) = task :: rest →
  _recycleWorker w σ =
    worker_do w task
      (setTeam (λ t, setBusyCount (_busyCount t + 1) t)
         (setTeam (setIdle (({[w]} ∪ _idle (team σ)) ∖ {[w]}))
            (emit (EvRetry task)
               (setTeam (setPending rest)
                  (setTeam (λ t, setIdle ({[w]} ∪ _idle t) t) σ))))).
Proof.
  intros He Hp. destruct (recycle_pending w _ _ _ Hp) as (w' & Hw' & ->).
  rewrite He in Hw'. assert (w' = w) as -> by set_solver. reflexivity.
Qed.

(** X7.  [grow] with tasks waiting and no idle worker, where the factory
    does not decline at its next calls, as many as the workers asked for:
    the first new worker gets the first waiting task, the second the
    second, and so on; as many tasks leave [_pending] as workers are made,
    [_busyCount] goes up by that number, no worker stays idle and none is
    told to quit. *)
Theorem grow_hands_the_backlog_to_the_new_workers
    (ts rest : list Task) (σ : World) :
  NextAccepted (length ts) σ →
  _idle (team σ) = ∅ →
  _pending (team σ) = ts ++ rest →
  let σ' := createOneWorker (length ts) σ in
  ∃ new, length new = length ts ∧
         produced (trace σ') = produced (trace σ) ++ new ∧
         workers σ' = workers σ ++ zip new ts ∧
         _pending (team σ') = rest ∧
         _idle (team σ') = ∅ ∧
         _busyCount (team σ') = _busyCount (team σ) + Z.of_nat (length ts) ∧
         retired (trace σ') = retired (trace σ) ∧
         factoryCalls σ' = (factoryCalls σ + length ts)%nat.
Proof.
  cbn zeta. revert σ.
  induction ts as [|task ts IH]; intros σ Hnext He Hp.
  - exists []. cbn in *. rewrite !app_nil_r.
    repeat split; auto; lia.
  - cbn [length createOneWorker]. unfold callFactory.
    assert (Hnow : is_Some (createWorker (factoryCalls σ)
                              (statistics (team σ)))).
    { specialize (Hnext 0%nat). cbn [length] in Hnext.
      rewrite Nat.add_0_r in Hnext.
      replace (statistics (team σ)) with (statisticsAfter σ 0);
        [apply Hnext; lia|].
      unfold statisticsAfter, statistics. rewrite He, size_empty.
      f_equal; lia. }
    destruct Hnow as [w Hw]. rewrite Hw.
    match goal with |- context [_recycleWorker w ?s] =>
      rewrite (recycle_takes_head w task (ts ++ rest) s He Hp);
      set (σ1 := worker_do _ _ _)
    end.
    assert (Hσ1 : produced (trace σ1) = produced (trace σ) ++ [w] ∧
                  workers σ1 = workers σ ++ [(w, task)] ∧
                  _busyCount (team σ1) = _busyCount (team σ) + 1 ∧
                  retired (trace σ1) = retired (trace σ) ∧
                  factoryCalls σ1 = S (factoryCalls σ) ∧
                  _idle (team σ1) = ∅ ∧
                  _pending (team σ1) = ts ++ rest).
    { subst σ1. unfold produced, retired. cbn. rewrite !omap_app. cbn.
      rewrite !app_nil_r, He. repeat split. set_solver. }
    clearbody σ1.
    destruct Hσ1 as (Hprod1 & Hwork1 & Hbusy1 & Hret1 & Hcalls1 & He1 & Hp1).
    assert (Hnext1 : NextAccepted (length ts) σ1).
    { intros j Hj. specialize (Hnext (S j)). cbn [length] in Hnext.
      rewrite Hcalls1.
      replace (S (factoryCalls σ) + j)%nat with (factoryCalls σ + S j)%nat
        by lia.
      replace (statisticsAfter σ1 j) with (statisticsAfter σ (S j));
        [apply Hnext; lia|].
      unfold statisticsAfter. rewrite Hbusy1, Hp1, Hp. cbn [length app].
      f_equal; lia. }
    destruct (IH σ1 Hnext1 He1 Hp1)
      as (new & Hlen & Hprod & Hwork & Hpend & Hidle & Hbusy & Hret & Hcalls).
    exists (w :: new).
    rewrite Hprod, Hwork, Hpend, Hidle, Hbusy, Hret, Hcalls.
    rewrite Hprod1, Hwork1, Hbusy1, Hret1, Hcalls1.
    rewrite <- !app_assoc. cbn [length zip zip_with app].
    repeat split; try reflexivity; lia.
Qed.

Lemma LivePre_made (σ : World) (w : Worker) :
  FreshWorkers → Live σ →
  createWorker (factoryCalls σ) (statistics (team σ)) = Some w →
  LivePre w (snd (callFactory σ)).
Proof.
  intros Hfresh H Hc.
  destruct (made_now_is_new Hfresh σ w H Hc) as [Hni Hnb].
  destruct H as (Hnd & Hdis & Hmade & Heq).
  unfold callFactory. rewrite Hc. cbn [snd].
  unfold LivePre, busyWorkers in *. counts.
  repeat split; [exact Hnd|exact Hdis|exact Hni|exact Hnb| |lia].
  intros w' [->|Hw'].
  - exists (factoryCalls σ), (statistics (team σ)). split; [lia|exact Hc].
  - eapply madeBefore_mono; [|apply Hmade; tauto]. lia.
Qed.

Lemma grow_parks (k : nat) (σ : World) :
  FreshWorkers → NeverDeclines → Live σ →
  _pending (team σ) = [] → isSet (_quit (team σ)) = false →
  0 ≤ _toShrink (team σ) →
  let σ' := createOneWorker k σ in
  let paid := (k `min` Z.to_nat (_toShrink (team σ)))%nat in
  Live σ' ∧
  size (_idle (team σ')) = (size (_idle (team σ)) + (k - paid))%nat ∧
  _toShrink (team σ') = _toShrink (team σ) - Z.of_nat paid ∧
  length (retired (trace σ')) = (length (retired (trace σ)) + paid)%nat ∧
  length (produced (trace σ')) = (length (produced (trace σ)) + k)%nat ∧
  _busyCount (team σ') = _busyCount (team σ) ∧
  _pending (team σ') = [].
Proof.
  intros Hfresh Hnever. cbn zeta. revert σ.
  induction k as [|k IH]; intros σ Hlive Hp Hq Hs.
  - cbn [createOneWorker]. split; [exact Hlive|]. repeat split; auto; lia.
  - cbn [createOneWorker].
    destruct (Hnever (factoryCalls σ) (statistics (team σ))) as [w Hw].
    pose proof (LivePre_made σ w Hfresh Hlive Hw) as Hpre.
    unfold callFactory in *. rewrite Hw in *. cbn [snd] in Hpre.
    match goal with |- context [_recycleWorker w ?s] => set (σ1 := s) in * end.
    pose proof (Live_recycle Hfresh w σ1 Hpre) as Hlive2.
    destruct Hpre as (_ & _ & Hni & _).
    assert (Hσ2 :
      _pending (team (_recycleWorker w σ1)) = [] ∧
      isSet (_quit (team (_recycleWorker w σ1))) = false ∧
      _busyCount (team (_recycleWorker w σ1)) = _busyCount (team σ) ∧
      length (produced (trace (_recycleWorker w σ1)))
        = S (length (produced (trace σ))) ∧
      ((0 < _toShrink (team σ) ∧
        _toShrink (team (_recycleWorker w σ1)) = _toShrink (team σ) - 1 ∧
        size (_idle (team (_recycleWorker w σ1))) = size (_idle (team σ)) ∧
        length (retired (trace (_recycleWorker w σ1)))
          = S (length (retired (trace σ))))
       ∨ (_toShrink (team σ) = 0 ∧
          _toShrink (team (_recycleWorker w σ1)) = 0 ∧
          size (_idle (team (_recycleWorker w σ1)))
            = S (size (_idle (team σ))) ∧
          length (retired (trace (_recycleWorker w σ1)))
            = length (retired (trace σ))))).
    { destruct (Z.ltb_spec 0 (_toShrink (team σ))) as [Hpos|Hzero].
      - rewrite (recycle_shrink w σ1) by (subst σ1; cbn; auto).
        subst σ1. unfold produced, retired. cbn in *.
        rewrite !omap_app, !length_app. cbn.
        replace (({[w]} ∪ _idle (team σ)) ∖ {[w]}) with (_idle (team σ))
          by set_solver.
        repeat split; auto; try lia; try (left; repeat split; auto; lia).
      - assert (_toShrink (team σ) = 0) as Hz by lia.
        unfold _recycleWorker. subst σ1. cbn in *. rewrite Hp, Hq, Hz. cbn.
        unfold produced, retired. cbn. rewrite !omap_app, !length_app. cbn.
        rewrite (size_add _ _ Hni).
        repeat split; auto; try lia; try (right; repeat split; auto; lia). }
    clearbody σ1. set (σ2 := _recycleWorker w σ1) in *. clearbody σ2.
    destruct Hσ2 as (Hp2 & Hq2 & Hb2 & Hpr2 & Hcase).
    destruct (IH σ2 Hlive2 Hp2 Hq2) as (H1 & H2 & H3 & H4 & H5 & H6 & H7).
    { destruct Hcase as [(? & ? & _)|(? & ? & _)]; lia. }
    split; [exact H1|]. rewrite H2, H3, H4, H5, H6, H7.
    destruct Hcase as [(Hpos & -> & -> & ->)|(Hz & -> & -> & ->)];
      repeat split; auto; lia.
Qed.

(** X8.  [grow(n)] on a team that has run from new, with nothing pending, no
    quit asked for and a factory that never declines and makes a new worker
    each time: [n] workers are made ([n] not positive makes none); the first
    of them pay off the debt [_toShrink], one each, and are told to quit at
    once; the others stay idle; [_busyCount] and [_pending] stay. *)
Theorem grow_pays_the_debt_then_parks (steps : list Step) (n : Z) :
  FreshWorkers → NeverDeclines →
  let σ := run steps fresh in
  _pending (team σ) = [] → isSet (_quit (team σ)) = false →
  let σ' := perform (CreateOneWorker n) σ in
  let paid := (Z.to_nat n `min` Z.to_nat (_toShrink (team σ)))%nat in
  size (_idle (team σ')) = (size (_idle (team σ)) + (Z.to_nat n - paid))%nat ∧
  _toShrink (team σ') = _toShrink (team σ) - Z.of_nat paid ∧
  length (retired (trace σ')) = (length (retired (trace σ)) + paid)%nat ∧
  length (produced (trace σ'))
    = (length (produced (trace σ)) + Z.to_nat n)%nat ∧
  _busyCount (team σ') = _busyCount (team σ) ∧
  _pending (team σ') = [].
Proof.
  intros Hfresh Hnever. cbn zeta. intros Hp Hq. cbn [perform].
  destruct (grow_parks (Z.to_nat n) (run steps fresh) Hfresh Hnever)
    as (_ & H); auto.
  - apply Live_run, Hfresh.
  - apply toShrink_nonneg_run. reflexivity.
Qed.

(** ** A worker told to quit is told once, and is not used again *)

Lemma Gone_same (σ σ' : World) :
  retired (trace σ') = retired (trace σ) →
  _idle (team σ') ⊆ _idle (team σ) →
  (∀ w, w ∈ busyWorkers σ' → w ∈ busyWorkers σ) →
  (factoryCalls σ ≤ factoryCalls σ')%nat →
  Gone σ → Gone σ'.
Proof.
  unfold Gone. intros -> Hi Hb Hk [Hnd H]. split; [exact Hnd|].
  intros w Hw. destruct (H w Hw) as (H1 & H2 & H3).
  repeat split; [set_solver|auto|].
  eapply madeBefore_mono; eauto.
Qed.

Lemma Gone_one_more (σ σ' : World) (w : Worker) :
  retired (trace σ') = retired (trace σ) ++ [w] →
  _idle (team σ') ⊆ _idle (team σ) ∖ {[w]} →
  busyWorkers σ' = busyWorkers σ →
  factoryCalls σ' = factoryCalls σ →
  (w ∉ retired (trace σ)) → (w ∉ busyWorkers σ) →
  madeBefore (factoryCalls σ) w →
  Gone σ → Gone σ'.
Proof.
  unfold Gone. intros -> Hi -> -> Hnr Hnb Hm [Hnd H]. split.
  - apply NoDup_app. repeat split; [exact Hnd| |apply NoDup_singleton].
    intros w' Hw' Hin. apply list_elem_of_singleton in Hin as ->. auto.
  - intros w' Hw'. apply elem_of_app in Hw' as [Hw'|Hw'].
    + destruct (H w' Hw') as (H1 & H2 & H3). repeat split; auto. set_solver.
    + apply list_elem_of_singleton in Hw' as ->.
      repeat split; auto. set_solver.
Qed.

Lemma Gone_quitOneIdler (σ : World) :
  Live σ → Gone σ → Gone (quitOneIdler σ).
Proof.
  intros (_ & Hdis & Hmade & _) Hg.
  destruct (quitOneIdler_cases σ) as [(_ & ->)|(w & Hw & ->)].
  - eapply Gone_same; [..|exact Hg]; try reflexivity; auto.
  - eapply (Gone_one_more σ _ w); [..|exact Hg]; try reflexivity.
    + unfold retired. cbn. rewrite omap_app. reflexivity.
    + intros Hr. destruct Hg as [_ Hg]. destruct (Hg w Hr) as (Hni & _).
      exact (Hni Hw).
    + intros Hb. exact (Hdis w Hb Hw).
    + apply Hmade. auto.
Qed.

Lemma Gone_quitIdlers (n : option Z) (σ : World) :
  Live σ → Gone σ → Gone (_quitIdlers n σ).
Proof.
  intros Hl Hg. unfold _quitIdlers. set (k := Z.to_nat _). clearbody k.
  assert (Hloop : Live (Nat.iter k quitOneIdler σ)
                  ∧ Gone (Nat.iter k quitOneIdler σ)).
  { apply (Nat.iter_invariant k _ quitOneIdler (λ σ', Live σ' ∧ Gone σ'));
      [|auto].
    intros σ' [Hl' Hg']. split;
      [apply Live_quitOneIdler, Hl'|apply Gone_quitOneIdler; assumption]. }
  destruct Hloop as [_ Hg'].
  eapply Gone_same; [..|exact Hg'].
  - apply retireCoordinator_retired.
  - destruct (retireCoordinator_settles n (Nat.iter k quitOneIdler σ))
      as (-> & _). reflexivity.
  - destruct (retireCoordinator_keepsBusy n (Nat.iter k quitOneIdler σ)
                (Nat.iter k quitOneIdler σ))
      as (_ & _ & _ & Hw & Hc & _); [repeat split|].
    unfold busyWorkers. rewrite Hw, Hc. auto.
  - destruct (retireCoordinator_keepsBusy n (Nat.iter k quitOneIdler σ)
                (Nat.iter k quitOneIdler σ))
      as (_ & _ & _ & _ & _ & ->); [repeat split|]. lia.
Qed.

Section StillFresh.

Hypothesis createWorker_fresh : FreshWorkers.

Lemma made_now_not_gone (σ : World) (w : Worker) :
  Gone σ →
  createWorker (factoryCalls σ) (statistics (team σ)) = Some w →
  w ∉ retired (trace σ).
Proof.
  intros [_ Hg] Hc Hr. destruct (Hg w Hr) as (_ & _ & i & s & Hi & Hc').
  pose proof (createWorker_fresh _ _ _ _ _ Hc Hc'). lia.
Qed.

Lemma Gone_coordinate (task : Task) (σ : World) :
  Live σ → Gone σ → Gone (_coordinateThisTask task σ).
Proof.
  intros Hl Hg.
  destruct (coordinate_cases task σ)
    as [(w & Hw & ->)|[(He & w & Hc & ->)|(He & Hc & ->)]].
  - destruct Hg as [Hnd Hg]. split.
    + unfold retired in *. cbn. rewrite omap_app. cbn.
      rewrite app_nil_r. exact Hnd.
    + setoid_rewrite busyWorkers_worker_do.
      unfold retired in *. cbn. rewrite omap_app. cbn. rewrite app_nil_r.
      intros w' Hw'. destruct (Hg w' Hw') as (H1 & H2 & H3).
      repeat split; [set_solver| |exact H3].
      intros Hin. apply elem_of_cons in Hin as [->|Hin]; auto.
  - pose proof (made_now_not_gone σ w Hg Hc) as Hnr.
    destruct Hg as [Hnd Hg]. split.
    + unfold retired in *. cbn. rewrite !omap_app. cbn.
      rewrite !app_nil_r. exact Hnd.
    + setoid_rewrite busyWorkers_worker_do.
      unfold retired in *. cbn. rewrite !omap_app. cbn. rewrite !app_nil_r.
      intros w' Hw'. destruct (Hg w' Hw') as (H1 & H2 & H3).
      repeat split; [exact H1| |eapply madeBefore_mono; [|exact H3]; lia].
      intros Hin. apply elem_of_cons in Hin as [->|Hin]; auto.
  - eapply Gone_same; [..|exact Hg]; try reflexivity; auto.
    + unfold retired. cbn. rewrite !omap_app. cbn. rewrite !app_nil_r.
      reflexivity.
    + cbn. lia.
Qed.

Lemma Live_added (w : Worker) (σ : World) :
  LivePre w σ → Live (setTeam (λ t, setIdle ({[w]} ∪ _idle t) t) σ).
Proof.
  intros (Hnd & Hdis & Hni & Hnb & Hmade & Heq).
  unfold Live, busyWorkers in *. counts. rewrite (size_add _ _ Hni).
  repeat split; [exact Hnd| | |lia].
  - intros w' Hw'. specialize (Hdis w' Hw'). set_solver.
  - intros w' [Hw'|Hw']; apply Hmade; set_solver.
Qed.

Lemma Gone_recycle (w : Worker) (σ : World) :
  LivePre w σ → Gone σ → (w ∉ retired (trace σ)) →
  Gone (_recycleWorker w σ).
Proof.
  intros Hpre Hg Hnr. pose proof (Live_added w σ Hpre) as Hl1.
  destruct Hpre as (_ & _ & Hni & Hnb & Hmade & _).
  assert (Hg1 : Gone (setTeam (λ t, setIdle ({[w]} ∪ _idle t) t) σ)).
  { destruct Hg as [Hnd Hg]. split; [exact Hnd|]. cbn.
    intros w' Hw'. destruct (Hg w' Hw') as (H1 & H2 & H3).
    repeat split; auto. set_solver. }
  unfold _recycleWorker. cbn.
  destruct (_pending (team σ)) as [|task rest].
  - destruct (isSet (_quit (team σ))).
    + apply Gone_quitIdlers; assumption.
    + destruct (_ >? 0); [|exact Hg1].
      eapply (Gone_one_more σ _ w); [..|exact Hg]; try reflexivity; auto.
      * unfold retired. cbn. rewrite omap_app. reflexivity.
      * cbn. set_solver.
  - apply Gone_coordinate.
    + eapply Live_same; [..|exact Hl1]; try reflexivity; counts; lia.
    + eapply Gone_same; [..|exact Hg1]; try reflexivity; auto.
      unfold retired. cbn. rewrite omap_app. cbn. apply app_nil_r.
Qed.

Lemma LivePre_return (w : Worker) (q : list CoordItem) (σ : World) :
  coordinator σ = IdleAndPending w :: q → Live σ →
  LivePre w (setTeam (λ t, setBusyCount (_busyCount t - 1) t)
               (setCoordinator q σ)).
Proof.
  intros Hq (Hnd & Hdis & Hmade & Heq).
  unfold LivePre, busyWorkers in *. counts. rewrite Hq in *.
  cbn [returning omap list_omap] in *.
  apply NoDup_app in Hnd as (Hn1 & Hn2 & Hn3).
  apply NoDup_cons in Hn3 as [Hn3 Hn4].
  repeat split; [| | | | |lia].
  - apply NoDup_app. repeat split; [exact Hn1| |exact Hn4].
    intros w' Hw' Hin. apply (Hn2 w' Hw'). set_solver.
  - intros w' Hw'. apply Hdis. set_solver.
  - apply Hdis. set_solver.
  - intros Hin. apply elem_of_app in Hin as [Hin|Hin]; [|contradiction].
    apply (Hn2 w Hin). set_solver.
  - intros w' Hw'. apply Hmade. set_solver.
Qed.

Lemma Gone_createOneWorker (k : nat) (σ : World) :
  Live σ ∧ Gone σ → Live (createOneWorker k σ) ∧ Gone (createOneWorker k σ).
Proof.
  apply (createOneWorker_invariant (λ σ, Live σ ∧ Gone σ)
           (λ w σ, LivePre w σ ∧ Gone σ ∧ w ∉ retired (trace σ))).
  - intros w σ' (Hpre & Hg & Hnr). split;
      [apply Live_recycle; assumption|apply Gone_recycle; assumption].
  - intros σ' [Hl Hg].
    destruct (createWorker (factoryCalls σ') (statistics (team σ')))
      as [w|] eqn:Hc.
    + pose proof (LivePre_made σ' w createWorker_fresh Hl Hc) as Hpre.
      pose proof (made_now_not_gone σ' w Hg Hc) as Hnr.
      unfold callFactory in *. rewrite Hc in *. cbn [snd] in Hpre.
      split; [exact Hpre|]. split.
      * eapply Gone_same; [..|exact Hg]; try reflexivity; auto.
        -- unfold retired. cbn. rewrite omap_app. cbn. apply app_nil_r.
        -- cbn. lia.
      * unfold retired in *. cbn. rewrite omap_app. cbn.
        rewrite app_nil_r. exact Hnr.
    + unfold callFactory. rewrite Hc. split.
      * eapply Live_same; [..|exact Hl]; try reflexivity; counts; lia.
      * eapply Gone_same; [..|exact Hg]; try reflexivity; auto.
        -- unfold retired. cbn. rewrite omap_app. cbn. apply app_nil_r.
        -- cbn. lia.
Qed.

Lemma Gone_step (σ : World) (s : Step) :
  Live σ → Gone σ → Gone (step σ s).
Proof.
  intros Hl Hg. destruct s as [task|n|n| | |w]; cbn [step].
  - unfold do. destruct (Quit_check _); [|exact Hg].
    eapply Gone_same; [..|exact Hg]; try reflexivity; auto.
    unfold busyWorkers. cbn. rewrite returning_app. cbn.
    rewrite app_nil_r. auto.
  - unfold grow. destruct (Quit_check _); [|exact Hg].
    eapply Gone_same; [..|exact Hg]; try reflexivity; auto.
    unfold busyWorkers. cbn. rewrite returning_app. cbn.
    rewrite app_nil_r. auto.
  - unfold shrink. destruct (Quit_check _); [|exact Hg].
    eapply Gone_same; [..|exact Hg]; try reflexivity; auto.
    unfold busyWorkers. cbn. rewrite returning_app. cbn.
    rewrite app_nil_r. auto.
  - unfold quit, Quit_set. destruct (Quit_check _); [|exact Hg].
    eapply Gone_same; [..|exact Hg]; try reflexivity; auto.
    unfold busyWorkers. cbn. rewrite returning_app. cbn.
    rewrite app_nil_r. auto.
  - destruct (coordinator σ) as [|item q] eqn:Hq; [exact Hg|].
    destruct item as [n|n|task|w]; cbn [perform].
    + apply Gone_createOneWorker. split.
      * eapply Live_same; [..|exact Hl]; try reflexivity.
        unfold busyWorkers. cbn. rewrite Hq. reflexivity.
      * eapply Gone_same; [..|exact Hg]; try reflexivity; auto.
        unfold busyWorkers. cbn. rewrite Hq. auto.
    + apply Gone_quitIdlers.
      * eapply Live_same; [..|exact Hl]; try reflexivity.
        unfold busyWorkers. cbn. rewrite Hq. reflexivity.
      * eapply Gone_same; [..|exact Hg]; try reflexivity; auto.
        unfold busyWorkers. cbn. rewrite Hq. auto.
    + apply Gone_coordinate.
      * eapply Live_same; [..|exact Hl]; try reflexivity.
        unfold busyWorkers. cbn. rewrite Hq. reflexivity.
      * eapply Gone_same; [..|exact Hg]; try reflexivity; auto.
        unfold busyWorkers. cbn. rewrite Hq. auto.
    + unfold idleAndPending. apply Gone_recycle.
      * apply LivePre_return; assumption.
      * eapply Gone_same; [..|exact Hg]; try reflexivity; auto.
        unfold busyWorkers. cbn. rewrite Hq. cbn. set_solver.
      * cbn. intros Hr. destruct Hg as [_ Hg].
        destruct (Hg w Hr) as (_ & Hnb & _). apply Hnb.
        unfold busyWorkers. rewrite Hq. cbn. set_solver.
  - destruct (takeFor w (workers σ)) as [[task q]|] eqn:Hw; [|exact Hg].
    apply takeFor_Some in Hw. unfold doWork.
    assert (Hb : ∀ σ', workers σ' = q →
              coordinator σ' = coordinator σ ++ [IdleAndPending w] →
              ∀ w', w' ∈ busyWorkers σ' → w' ∈ busyWorkers σ).
    { intros σ' Hw' Hc' w'. unfold busyWorkers. rewrite Hw', Hc', Hw.
      rewrite returning_app. cbn. set_solver. }
    destruct (callTask task); (eapply Gone_same; [..|exact Hg]);
      try (apply Hb; reflexivity); try reflexivity; auto;
      unfold retired; cbn; rewrite ?omap_app; cbn; rewrite ?app_nil_r;
      reflexivity.
Qed.

Lemma Gone_run (steps : list Step) : Gone (run steps fresh).
Proof.
  induction steps as [|s steps IH] using rev_ind.
  - split; [constructor|]. intros w Hw. cbn in Hw. set_solver.
  - rewrite run_app. cbn [run fold_left].
    apply Gone_step; [apply Live_run, createWorker_fresh|exact IH].
Qed.

End StillFresh.

(** X9.  With a factory that makes a new worker each time, along every run from
    a new team no worker is told to quit twice, and a worker that has been
    told to quit is not idle and holds no task at any later point: it is
    never handed a task again. *)
Theorem quit_workers_are_quit_once_and_not_used_again (steps : list Step) :
  FreshWorkers →
  let σ := run steps fresh in
  NoDup (retired (trace σ)) ∧
  ∀ w, w ∈ retired (trace σ) →
       (w ∉ _idle (team σ)) ∧ (w ∉ busyWorkers σ).
Proof.
  intros Hfresh. cbn zeta. destruct (Gone_run Hfresh steps) as [Hnd Hg].
  split; [exact Hnd|]. intros w Hw. destruct (Hg w Hw) as (H1 & H2 & _).
  split; assumption.
Qed.

(** X12.  Once a [_quitIdlers()] has been performed with the quit flag set, no
    worker is idle at any later point of the run: a worker that comes back
    takes a pending task or is told to quit, and a worker made by a [grow]
    accepted before the quit is told to quit as soon as it is made. *)
Theorem no_worker_idles_after_quit
    (steps1 steps2 : list Step) (q : list CoordItem) :
  let σ1 := run steps1 fresh in
  isSet (_quit (team σ1)) = true →
  coordinator σ1 = QuitIdlers None :: q →
  let σ := run steps2 (step σ1 CoordinatorRuns) in
  _idle (team σ) = ∅ ∧
  idleWorkerCount (statistics (team σ)) = 0 ∧
  isSet (_quit (team σ)) = true.
Proof.
  cbn zeta. intros Hq Hc.
  pose proof (Accounting_run steps1 fresh Accounting_fresh) as Ha.
  assert (Hs : QuitSettled (run steps2 (step (run steps1 fresh) CoordinatorRuns))).
  { apply QuitSettled_run. cbn [step]. rewrite Hc. cbn [perform].
    apply quitIdlers_settles; auto.
    eapply Accounting_next; eauto; discriminate. }
  destruct Hs as (_ & Hq' & He & _).
  split; [exact He|]. split; [|exact Hq'].
  unfold statistics. cbn [idleWorkerCount]. rewrite He, size_empty.
  reflexivity.
Qed.

End Team.

(** ** The claims at work *)

Lemma limitedWorkerCreator_fresh (currentLimit : nat → Z) :
  FreshWorkers (limitedWorkerCreator currentLimit).
Proof.
  intros i j s s' w. unfold limitedWorkerCreator.
  destruct (_ >=? _); [discriminate|]. destruct (_ >=? _); [discriminate|].
  congruence.
Qed.

(** C1 fails as stated: [grow(1)] is performed, then [shrink(0)] and
    [quit()] are called one after the other; the coordinator performs the
    item of [shrink(0)] with the quit flag set and is told to quit while the
    worker is idle. *)
Lemma coordinator_quits_with_idle_worker :
  let σ := run (limitedWorkerCreator (λ _, 1)) popFirst
             [CallGrow 1; CoordinatorRuns;
              CallShrink (Some 0); CallQuit; CoordinatorRuns] fresh in
  trace σ = [EvCreate (Some 0%nat);
             EvCoordinatorQuit (Some 0) true
               {| idleWorkerCount := 1; busyWorkerCount := 0;
                  backloggedWorkCount := 0 |}] ∧
  elements (_idle (team σ)) = [0%nat] ∧
  coordinator σ = [QuitIdlers None].
Proof. vm_compute. repeat split. Qed.

(** C5 fails as stated.  With a limit of one worker, a second task waits in
    [_pending] and [shrink(1)] leaves a debt of one: when the worker comes
    back it gets the waiting task, is not told to quit, and the debt stays.
    And with the quit flag set and nothing pending, the worker that comes
    back is told to quit by [_quitIdlers()], and the debt stays as well. *)
Lemma shrink_debt_is_not_always_paid :
  (let σ := run (limitedWorkerCreator (λ _, 1)) popFirst
              [CallDo (returning_task 1); CallDo (returning_task 2);
               CallShrink (Some 1);
               CoordinatorRuns; CoordinatorRuns; CoordinatorRuns;
               WorkerRuns 0%nat] fresh in
   let σ' := step (limitedWorkerCreator (λ _, 1)) popFirst σ CoordinatorRuns in
   _toShrink (team σ) = 1 ∧
   coordinator σ = [IdleAndPending 0%nat] ∧
   _toShrink (team σ') = 1 ∧
   retired (trace σ') = [] ∧
   workers σ' = [(0%nat, returning_task 2)] ∧
   elements (_idle (team σ')) = []) ∧
  (let σ := run (limitedWorkerCreator (λ _, 1)) popFirst
              [CallDo (returning_task 1); CoordinatorRuns;
               CallShrink (Some 1); CoordinatorRuns;
               CallQuit; CoordinatorRuns; WorkerRuns 0%nat] fresh in
   let σ' := step (limitedWorkerCreator (λ _, 1)) popFirst σ CoordinatorRuns in
   _toShrink (team σ) = 2 ∧
   _pending (team σ) = [] ∧
   coordinator σ = [IdleAndPending 0%nat] ∧
   _toShrink (team σ') = 2 ∧
   retired (trace σ') = [0%nat]).
Proof. vm_compute. repeat split. Qed.

(** C6 fails as stated: the factory declines for three tasks, then three
    [grow(1)] bring three workers one after the other, each of which gets
    the head of [_pending]; the workers run what they got in another
    order. *)
Lemma backlog_is_run_out_of_order :
  let σ := run (limitedWorkerCreator limitOpensLate) popFirst
             [CallDo (returning_task 1); CallDo (returning_task 2);
              CallDo (returning_task 3);
              CoordinatorRuns; CoordinatorRuns; CoordinatorRuns] fresh in
  let σ' := run (limitedWorkerCreator limitOpensLate) popFirst
              [CallGrow 1; CoordinatorRuns; CallGrow 1; CoordinatorRuns;
               CallGrow 1; CoordinatorRuns;
               WorkerRuns 5%nat; WorkerRuns 4%nat; WorkerRuns 3%nat] σ in
  trace σ = [EvCreate None; EvBacklog (returning_task 1);
             EvCreate None; EvBacklog (returning_task 2);
             EvCreate None; EvBacklog (returning_task 3)] ∧
  _pending (team σ) = [returning_task 1; returning_task 2; returning_task 3] ∧
  retried (trace σ') = [returning_task 1; returning_task 2; returning_task 3] ∧
  ran (trace σ') = [returning_task 3; returning_task 2; returning_task 1].
Proof. vm_compute. repeat split. Qed.

(** C9 fails as stated: with one worker busy, [quit()] is called and its
    item performed; a second [quit()] raises the shutting-down error, and
    nothing is handed to the coordinator. *)
Lemma second_quit_raises :
  let σ := run (limitedWorkerCreator (λ _, 1)) popFirst
             [CallDo (returning_task 1); CoordinatorRuns;
              CallQuit; CoordinatorRuns] fresh in
  isSet (_quit (team σ)) = true ∧
  coordinator σ = [] ∧
  fst (quit σ) = Raised PoolShuttingDown ∧
  coordinator (snd (quit σ)) = [] ∧
  quit σ = (Raised PoolShuttingDown, σ).
Proof. vm_compute. repeat split. Qed.

Lemma do_and_grow_fail_after_quit_witness :
  isSet (_quit (team (snd (quit fresh)))) = true ∧
  do (returning_task 1) (snd (quit fresh))
    = (Raised PoolShuttingDown, snd (quit fresh)) ∧
  grow 2 (snd (quit fresh)) = (Raised PoolShuttingDown, snd (quit fresh)).
Proof.
  split; [reflexivity|].
  apply (do_and_grow_fail_after_quit (returning_task 1) 2 (snd (quit fresh))).
  reflexivity.
Defined.

Lemma shrink_debt_paid_on_clean_return_witness :
  let σ := setCoordinator []
             (run (limitedWorkerCreator (λ _, 1)) popFirst
                [CallDo (returning_task 1); CallShrink (Some 1);
                 CoordinatorRuns; CoordinatorRuns; WorkerRuns 0%nat] fresh) in
  let σ' := idleAndPending (limitedWorkerCreator (λ _, 1)) popFirst 0%nat σ in
  0 < _toShrink (team σ) ∧
  _pending (team σ) = [] ∧
  isSet (_quit (team σ)) = false ∧
  _toShrink (team σ') = _toShrink (team σ) - 1 ∧
  (0%nat ∉ _idle (team σ')) ∧
  _idle (team σ') = _idle (team σ) ∖ {[0%nat]} ∧
  trace σ' = trace σ ++ [EvWorkerQuit 0%nat] ∧
  _busyCount (team σ') = _busyCount (team σ) - 1.
Proof.
  cbn zeta. split; [reflexivity|]. split; [reflexivity|].
  split; [reflexivity|].
  apply (shrink_debt_paid_on_clean_return
           (limitedWorkerCreator (λ _, 1)) popFirst 0%nat);
    reflexivity.
Defined.

Lemma raising_task_is_contained_witness :
  taskBody (raising_task 7) = Raises ∧
  ∃ σ', doWork 0%nat (raising_task 7) fresh = (Ok, σ') ∧
        trace σ' = [EvRun 0%nat (raising_task 7); EvLog 0%nat (raising_task 7)] ∧
        coordinator σ' = [IdleAndPending 0%nat].
Proof.
  split; [reflexivity|].
  destruct (raising_task_is_contained (limitedWorkerCreator (λ _, 1)) popFirst
              0%nat (raising_task 7) fresh eq_refl)
    as [(σ' & H1 & H2 & _ & _ & _ & H3 & _) _].
  exists σ'. repeat split; assumption.
Defined.

Lemma retry_always_finds_idle_worker_witness :
  let σ := setTeam (setPending [returning_task 1; returning_task 2]) fresh in
  let σ' := _recycleWorker (limitedWorkerCreator (λ _, 0)) popFirst 4%nat σ in
  _pending (team σ) = [returning_task 1; returning_task 2] ∧
  factoryCalls σ' = factoryCalls σ ∧
  _pending (team σ') = [returning_task 2].
Proof.
  cbn zeta. split; [reflexivity|].
  destruct (retry_always_finds_idle_worker (limitedWorkerCreator (λ _, 0))
              popFirst 4%nat (returning_task 1) [returning_task 2]
              (setTeam (setPending [returning_task 1; returning_task 2]) fresh)
              eq_refl)
    as (_ & H1 & H2 & _).
  split; assumption.
Defined.

Lemma idle_plus_busy_is_made_minus_retired_witness :
  let σ := run (limitedWorkerCreator (λ _, 2)) popFirst
             [CallGrow 3; CoordinatorRuns; CallDo (returning_task 1);
              CoordinatorRuns; CallShrink (Some 1); CoordinatorRuns] fresh in
  FreshWorkers (limitedWorkerCreator (λ _, 2)) ∧
  Z.of_nat (size (_idle (team σ))) + _busyCount (team σ)
    = Z.of_nat (length (produced (trace σ)))
      - Z.of_nat (length (retired (trace σ))).
Proof.
  cbn zeta. split; [apply limitedWorkerCreator_fresh|].
  apply (idle_plus_busy_is_made_minus_retired
           (limitedWorkerCreator (λ _, 2)) popFirst
           [CallGrow 3; CoordinatorRuns; CallDo (returning_task 1);
            CoordinatorRuns; CallShrink (Some 1); CoordinatorRuns]
           (limitedWorkerCreator_fresh (λ _, 2))).
Defined.

Lemma coordinator_quits_once_when_drained_witness :
  let σ1 := run (limitedWorkerCreator (λ _, 1)) popFirst
              [CallDo (returning_task 1); CoordinatorRuns; CallQuit] fresh in
  let σ := run (limitedWorkerCreator (λ _, 1)) popFirst
             [WorkerRuns 0%nat; CoordinatorRuns]
             (step (limitedWorkerCreator (λ _, 1)) popFirst σ1 CoordinatorRuns) in
  isSet (_quit (team σ1)) = true ∧
  coordinator σ1 = [QuitIdlers None] ∧
  _busyCount (team σ) = 0 ∧
  _pending (team σ) = [] ∧
  _idle (team σ) = ∅ ∧
  length (coordinatorQuits (trace σ)) = 1%nat.
Proof.
  cbn zeta. do 4 (split; [reflexivity|]).
  apply (proj2 (coordinator_quits_once_when_drained
                  (limitedWorkerCreator (λ _, 1)) popFirst)
           [CallDo (returning_task 1); CoordinatorRuns; CallQuit]
           [WorkerRuns 0%nat; CoordinatorRuns] []);
    reflexivity.
Defined.

(** ** The end-to-end scenarios of the spec, run *)

(** Three tasks, a factory that never declines: all three run on a worker
    of their own and three workers are idle in the end. *)
Example scenario_no_declines :
  let σ := run (limitedWorkerCreator (λ _, 100)) popFirst
             [CallDo (returning_task 1); CallDo (returning_task 2);
              CallDo (returning_task 3);
              CoordinatorRuns; CoordinatorRuns; CoordinatorRuns;
              WorkerRuns 0%nat; WorkerRuns 1%nat; WorkerRuns 2%nat;
              CoordinatorRuns; CoordinatorRuns; CoordinatorRuns] fresh in
  ran (trace σ) = [returning_task 1; returning_task 2; returning_task 3] ∧
  size (_idle (team σ)) = 3%nat ∧ _busyCount (team σ) = 0 ∧
  _pending (team σ) = [].
Proof. vm_compute. repeat split. Qed.

(** A limit of two and three tasks: the third waits until the first worker
    comes back, and two workers are idle after three completions. *)
Example scenario_limit_two :
  let σ := run (limitedWorkerCreator (λ _, 2)) popFirst
             [CallDo (returning_task 1); CallDo (returning_task 2);
              CallDo (returning_task 3);
              CoordinatorRuns; CoordinatorRuns; CoordinatorRuns] fresh in
  let σ' := run (limitedWorkerCreator (λ _, 2)) popFirst
              [WorkerRuns 0%nat; CoordinatorRuns; WorkerRuns 1%nat;
               CoordinatorRuns; WorkerRuns 0%nat; CoordinatorRuns] σ in
  statistics (team σ)
    = {| idleWorkerCount := 0; busyWorkerCount := 2;
         backloggedWorkCount := 1 |} ∧
  submittedTo 0%nat (trace σ') = [returning_task 1; returning_task 3] ∧
  statistics (team σ')
    = {| idleWorkerCount := 2; busyWorkerCount := 0;
         backloggedWorkCount := 0 |}.
Proof. vm_compute. repeat split. Qed.

(** [grow(3)], [shrink(2)], [shrink()]. *)
Example scenario_shrink_while_idle :
  let σ := run (limitedWorkerCreator (λ _, 100)) popFirst
             [CallGrow 3; CoordinatorRuns;
              CallShrink (Some 2); CoordinatorRuns] fresh in
  let σ' := run (limitedWorkerCreator (λ _, 100)) popFirst
              [CallShrink None; CoordinatorRuns] σ in
  size (_idle (team σ)) = 1%nat ∧ length (retired (trace σ)) = 2%nat ∧
  _toShrink (team σ) = 0 ∧
  size (_idle (team σ')) = 0%nat ∧ length (retired (trace σ')) = 3%nat.
Proof. vm_compute. repeat split. Qed.

(** [shrink(1)] while the only worker is busy: the worker is told to quit
    when it comes back. *)
Example scenario_shrink_while_busy :
  let σ := run (limitedWorkerCreator (λ _, 100)) popFirst
             [CallDo (returning_task 1); CoordinatorRuns;
              CallShrink (Some 1); CoordinatorRuns] fresh in
  let σ' := run (limitedWorkerCreator (λ _, 100)) popFirst
              [WorkerRuns 0%nat; CoordinatorRuns] σ in
  size (_idle (team σ)) = 0%nat ∧ _busyCount (team σ) = 1 ∧
  _toShrink (team σ) = 1 ∧
  size (_idle (team σ')) = 0%nat ∧ _busyCount (team σ') = 0 ∧
  _toShrink (team σ') = 0 ∧ retired (trace σ') = [0%nat].
Proof. vm_compute. repeat split. Qed.

(** [quit()] with two tasks pending: a further task is refused, the pending
    ones still run, then the worker and the coordinator are told to quit. *)
Example scenario_quit_drains_backlog :
  let σ := run (limitedWorkerCreator (λ _, 1)) popFirst
             [CallDo (returning_task 1); CallDo (returning_task 2);
              CallDo (returning_task 3);
              CoordinatorRuns; CoordinatorRuns; CoordinatorRuns;
              CallQuit] fresh in
  let σ' := run (limitedWorkerCreator (λ _, 1)) popFirst
              [CoordinatorRuns; WorkerRuns 0%nat; CoordinatorRuns;
               WorkerRuns 0%nat; CoordinatorRuns;
               WorkerRuns 0%nat; CoordinatorRuns] σ in
  do (returning_task 4) σ = (Raised PoolShuttingDown, σ) ∧
  ran (trace σ') = [returning_task 1; returning_task 2; returning_task 3] ∧
  retired (trace σ') = [0%nat] ∧
  coordinatorQuits (trace σ')
    = [(None, true, {| idleWorkerCount := 0; busyWorkerCount := 0;
                       backloggedWorkCount := 0 |})].
Proof. vm_compute. repeat split. Qed.

(** A task that raises: reported once, the worker idle again and used for
    the next task. *)
Example scenario_task_raises :
  let σ := run (limitedWorkerCreator (λ _, 100)) popFirst
             [CallDo (raising_task 1); CoordinatorRuns;
              WorkerRuns 0%nat; CoordinatorRuns] fresh in
  let σ' := run (limitedWorkerCreator (λ _, 100)) popFirst
              [CallDo (returning_task 2); CoordinatorRuns;
               WorkerRuns 0%nat; CoordinatorRuns] σ in
  trace σ = [EvCreate (Some 0%nat); EvSubmit 0%nat (raising_task 1);
             EvRun 0%nat (raising_task 1); EvLog 0%nat (raising_task 1)] ∧
  elements (_idle (team σ)) = [0%nat] ∧
  ran (trace σ') = [raising_task 1; returning_task 2] ∧
  elements (_idle (team σ')) = [0%nat].
Proof. vm_compute. repeat split. Qed.

(** ** A team made by [withLimit] stays within the limit *)

Lemma size_add_le (s : gset Worker) (w : Worker) :
  (size ({[w]} ∪ s) ≤ S (size s))%nat.
Proof.
  destruct (decide (w ∈ s)) as [Hw|Hw].
  - replace ({[w]} ∪ s) with s by set_solver. lia.
  - rewrite size_add by exact Hw. lia.
Qed.

Lemma limitedWorkerCreator_Some (currentLimit : nat → Z) (k : nat)
    (s : Statistics) (w : Worker) :
  limitedWorkerCreator currentLimit k s = Some w →
  busyWorkerCount s + idleWorkerCount s < currentLimit k.
Proof.
  unfold limitedWorkerCreator. rewrite Z.geb_leb.
  destruct (Z.leb_spec (currentLimit k) (busyWorkerCount s + idleWorkerCount s));
    [discriminate|auto].
Qed.

Section Limit.

Variable currentLimit : nat → Z.
Variable choose : list Worker → nat.
Variable L : Z.
Hypothesis limit_le : ∀ k, currentLimit k ≤ L.

Lemma within_quitIdlers (n : option Z) (σ : World) :
  WithinLimit L σ → WithinLimit L (_quitIdlers choose n σ).
Proof.
  unfold WithinLimit. intros H.
  destruct (quitIdlers_keepsBusy choose n σ) as (-> & _).
  unfold _quitIdlers. set (k := Z.to_nat _). clearbody k.
  destruct (retireCoordinator_settles n (Nat.iter k (quitOneIdler choose) σ))
    as (-> & _).
  rewrite quitLoop_idle. lia.
Qed.

Lemma within_coordinate (task : Task) (σ : World) :
  WithinLimit L σ →
  WithinLimit L
    (_coordinateThisTask (limitedWorkerCreator currentLimit) choose task σ).
Proof.
  unfold WithinLimit. intros H.
  destruct (coordinate_cases (limitedWorkerCreator currentLimit) choose task σ)
    as [(w & Hw & ->)|[(He & w & Hc & ->)|(He & Hc & ->)]]; cbn.
  - rewrite (size_remove (limitedWorkerCreator currentLimit) _ _ Hw) in H. lia.
  - apply limitedWorkerCreator_Some in Hc. cbn in Hc.
    specialize (limit_le (factoryCalls σ)). lia.
  - exact H.
Qed.

Lemma within_recycle (w : Worker) (σ : World) :
  Z.of_nat (size (_idle (team σ))) + _busyCount (team σ) + 1 ≤ L →
  WithinLimit L (_recycleWorker (limitedWorkerCreator currentLimit) choose w σ).
Proof.
  intros H.
  assert (H1 : WithinLimit L (setTeam (λ t, setIdle ({[w]} ∪ _idle t) t) σ)).
  { unfold WithinLimit. cbn.
    pose proof (size_add_le (_idle (team σ)) w). lia. }
  unfold _recycleWorker. cbn.
  destruct (_pending (team σ)) as [|task rest].
  - destruct (isSet (_quit (team σ))).
    + apply within_quitIdlers. exact H1.
    + destruct (_ >? 0); [|exact H1].
      unfold WithinLimit in *. cbn in *.
      assert (size (({[w]} ∪ _idle (team σ)) ∖ {[w]})
              ≤ size ({[w]} ∪ _idle (team σ)))%nat
        by (apply subseteq_size; set_solver).
      lia.
  - apply within_coordinate. exact H1.
Qed.

Lemma within_run (steps : list Step) (σ : World) :
  WithinLimit L σ →
  WithinLimit L (run (limitedWorkerCreator currentLimit) choose steps σ).
Proof.
  apply (run_invariant (limitedWorkerCreator currentLimit) choose
           (WithinLimit L)
           (λ _ σ, Z.of_nat (size (_idle (team σ))) + _busyCount (team σ) + 1
                   ≤ L)).
  - apply within_quitIdlers.
  - apply within_coordinate.
  - apply within_recycle.
  - intros σ' H. unfold callFactory.
    destruct (limitedWorkerCreator currentLimit (factoryCalls σ')
                (statistics (team σ'))) as [w|] eqn:Hc; [|exact H].
    apply limitedWorkerCreator_Some in Hc. cbn in *.
    specialize (limit_le (factoryCalls σ')). lia.
  - intros w q σ' _ H. unfold WithinLimit in H. cbn. lia.
  - intros item q σ' _ _ H. exact H.
  - intros item σ' _ H. exact H.
  - intros σ' H. exact H.
  - intros w task q σ' _ H. unfold doWork. destruct (callTask task); exact H.
Qed.

End Limit.

(** X10.  A team made by [Team.withLimit] whose limit is never above [L]: along
    every run from a new team, whatever is asked of it, the idle workers
    and the busy ones are together never more than [L]. *)
Theorem withLimit_never_exceeds_the_limit
    (currentLimit : nat → Z) (choose : list Worker → nat) (L : Z)
    (steps : list Step) :
  0 ≤ L → (∀ k, currentLimit k ≤ L) →
  let σ := run (limitedWorkerCreator currentLimit) choose steps fresh in
  Z.of_nat (size (_idle (team σ))) + _busyCount (team σ) ≤ L.
Proof.
  intros HL Hlim. cbn zeta.
  apply (within_run currentLimit choose L Hlim steps fresh).
  unfold WithinLimit. cbn. rewrite size_empty. lia.
Qed.

Lemma withLimit_never_exceeds_the_limit_witness :
  let σ := run (limitedWorkerCreator (λ _, 2)) popFirst
             [CallGrow 5; CoordinatorRuns; CallDo (returning_task 1);
              CallDo (returning_task 2); CallDo (returning_task 3);
              CoordinatorRuns; CoordinatorRuns; CoordinatorRuns] fresh in
  0 ≤ 2 ∧ (∀ k : nat, (λ _ : nat, 2) k ≤ 2) ∧
  Z.of_nat (size (_idle (team σ))) + _busyCount (team σ) ≤ 2.
Proof.
  cbn zeta. split; [lia|]. split; [intros k; lia|].
  apply (withLimit_never_exceeds_the_limit (λ _, 2) popFirst 2); [lia|].
  intros k. lia.
Defined.

(** ** [grow] on a team made by [withLimit] *)



Lemma alwaysNew_fresh : FreshWorkers alwaysNew.
Proof. intros i j s s' w. unfold alwaysNew. congruence. Qed.

Lemma alwaysNew_never_declines : NeverDeclines alwaysNew.
Proof. intros k s. exists k. reflexivity. Qed.

Lemma limitOpensLate_next_accepted :
  NextAccepted (limitedWorkerCreator limitOpensLate) 2
    (run (limitedWorkerCreator limitOpensLate) popFirst
       [CallDo (returning_task 1); CallDo (returning_task 2);
        CallDo (returning_task 3);
        CoordinatorRuns; CoordinatorRuns; CoordinatorRuns] fresh).
Proof.
  intros j Hj. destruct j as [|[|j]]; [exists 3%nat|exists 4%nat|lia];
    vm_compute; reflexivity.
Qed.

Lemma grow_hands_the_backlog_to_the_new_workers_witness :
  let σ := run (limitedWorkerCreator limitOpensLate) popFirst
             [CallDo (returning_task 1); CallDo (returning_task 2);
              CallDo (returning_task 3);
              CoordinatorRuns; CoordinatorRuns; CoordinatorRuns] fresh in
  let σ' := createOneWorker (limitedWorkerCreator limitOpensLate) popFirst
              2 σ in
  NextAccepted (limitedWorkerCreator limitOpensLate) 2 σ ∧
  _idle (team σ) = ∅ ∧
  _pending (team σ)
    = [returning_task 1; returning_task 2] ++ [returning_task 3] ∧
  workers σ' = [(3%nat, returning_task 1); (4%nat, returning_task 2)] ∧
  _pending (team σ') = [returning_task 3] ∧
  _idle (team σ') = ∅.
Proof.
  cbn zeta. split; [apply limitOpensLate_next_accepted|].
  split; [reflexivity|]. split; [reflexivity|].
  destruct (grow_hands_the_backlog_to_the_new_workers
              (limitedWorkerCreator limitOpensLate) popFirst
              [returning_task 1; returning_task 2] [returning_task 3]
              (run (limitedWorkerCreator limitOpensLate) popFirst
                 [CallDo (returning_task 1); CallDo (returning_task 2);
                  CallDo (returning_task 3);
                  CoordinatorRuns; CoordinatorRuns; CoordinatorRuns] fresh)
              limitOpensLate_next_accepted eq_refl eq_refl)
    as (new & _ & _ & _ & Hp & Hi & _).
  split; [reflexivity|]. split; [exact Hp|exact Hi].
Defined.

Lemma grow_pays_the_debt_then_parks_witness :
  let σ := run alwaysNew popFirst
             [CallDo (returning_task 1); CoordinatorRuns;
              CallShrink (Some 3); CoordinatorRuns] fresh in
  let σ' := perform alwaysNew popFirst (CreateOneWorker 5) σ in
  FreshWorkers alwaysNew ∧ NeverDeclines alwaysNew ∧
  _pending (team σ) = [] ∧ isSet (_quit (team σ)) = false ∧
  _toShrink (team σ) = 3 ∧
  size (_idle (team σ')) = (size (_idle (team σ)) + (5 - 3))%nat ∧
  _toShrink (team σ') = 0.
Proof.
  cbn zeta. split; [apply alwaysNew_fresh|].
  split; [apply alwaysNew_never_declines|].
  split; [reflexivity|]. split; [reflexivity|]. split; [reflexivity|].
  destruct (grow_pays_the_debt_then_parks alwaysNew popFirst
              [CallDo (returning_task 1); CoordinatorRuns;
               CallShrink (Some 3); CoordinatorRuns] 5
              alwaysNew_fresh alwaysNew_never_declines eq_refl eq_refl)
    as (H1 & H2 & _).
  split; [exact H1|exact H2].
Defined.

Lemma quit_workers_are_quit_once_and_not_used_again_witness :
  let σ := run alwaysNew popFirst
             [CallGrow 2; CoordinatorRuns; CallShrink (Some 1);
              CoordinatorRuns; CallDo (returning_task 1); CoordinatorRuns;
              CallShrink None; CoordinatorRuns;
              WorkerRuns 0%nat; CoordinatorRuns] fresh in
  FreshWorkers alwaysNew ∧
  retired (trace σ) = [1%nat; 0%nat] ∧
  NoDup (retired (trace σ)).
Proof.
  cbn zeta. split; [apply alwaysNew_fresh|]. split; [reflexivity|].
  apply (quit_workers_are_quit_once_and_not_used_again alwaysNew popFirst
           [CallGrow 2; CoordinatorRuns; CallShrink (Some 1);
            CoordinatorRuns; CallDo (returning_task 1); CoordinatorRuns;
            CallShrink None; CoordinatorRuns;
            WorkerRuns 0%nat; CoordinatorRuns] alwaysNew_fresh).
Defined.

Lemma no_worker_idles_after_quit_witness :
  let σ1 := run alwaysNew popFirst
              [CallGrow 2; CallDo (returning_task 1); CoordinatorRuns;
               CoordinatorRuns; CallGrow 1; CallQuit; CoordinatorRuns] fresh in
  let σ := run alwaysNew popFirst [WorkerRuns 1%nat; CoordinatorRuns]
             (step alwaysNew popFirst σ1 CoordinatorRuns) in
  isSet (_quit (team σ1)) = true ∧
  coordinator σ1 = [QuitIdlers None] ∧
  _idle (team σ) = ∅.
Proof.
  cbn zeta. split; [reflexivity|]. split; [reflexivity|].
  apply (no_worker_idles_after_quit alwaysNew popFirst
           [CallGrow 2; CallDo (returning_task 1); CoordinatorRuns;
            CoordinatorRuns; CallGrow 1; CallQuit; CoordinatorRuns]
           [WorkerRuns 1%nat; CoordinatorRuns] []);
    reflexivity.
Defined.

